(** * marko_polo: a Markov-chain quote generator (main.c)

    A shallow embedding of [main.c] and the properties of its context
    window, transition lists, hash-bucket model, trainer and generator.

    Conventions of the embedding:
    - [size_t] is 64 bits wide (LP64); every [size_t] operation is written
      with its wrap-around ([to_size_t]).
    - whether plain [char] is signed is implementation-defined; it is the
      parameter [char_signed] of the functions that hash.
    - [rand()] is the parameter [rand]: [rand n] is what the call number [n]
      returns; the functions that draw thread the number of calls.
    - a C string is represented by its contents, the characters before the
      terminating NUL; a nullable [char *] is an [option string].
    - the linked lists [MarkovValue] and [MarkovNode] are Rocq lists, the
      [next] pointer of a cell being the tail; NULL is the empty list.
    - a file is the sequence of its bytes, NUL included; a buffer that
      [fgets] fills is read as the C string before its first NUL.
    - every string that the program stores is a private [strdup] copy, so
      the functions are written on values; [Module Mem] has the functions of
      [MarkovContext] on pointers, with the heap, where sharing matters.
    - undefined behaviour (a NULL pointer handed to [strdup], a division by
      zero, an index outside an array) is the explicit outcome [Fault]. *)

From Stdlib Require Import ZArith Lia Ascii String.
From stdpp Require Import base tactics option list strings.

Local Open Scope string_scope.
Local Open Scope list_scope.
Local Open Scope Z_scope.

(** ** Platform *)

Definition SIZE_BITS : Z := 64.
Definition SIZE_MODULUS : Z := 2 ^ SIZE_BITS.

(** Conversion of an integer to [size_t]. *)
Definition to_size_t (z : Z) : Z := z mod SIZE_MODULUS.

(** [#define]s of main.c. *)
Definition MARKOV_CONTEXT_SIZE : nat := 3.
Definition MAX_QUOTE_LENGTH : Z := 50.
Definition HASH_MAP_SIZE : Z := 420.

(** The size of the line buffer, [char line[1024]]. *)
Definition LINE_BUFFER_SIZE : nat := 1024.

(** ** Outcomes of a C function *)

Inductive fault : Type :=
| NullDeref     (* a NULL pointer is dereferenced *)
| DivByZero     (* [x % 0] *)
| OutOfBounds   (* an array is indexed outside its bounds *)
| InvalidPointer. (* a pointer to no live block of the expected kind is used *)

Inductive result (A : Type) : Type :=
| Ok (a : A)
| Fault (f : fault).
Arguments Ok {A} a.
Arguments Fault {A} f.

(** [result] is a monad: [x ← m; k] runs [k] on the value of [m] and
    propagates its fault. *)
#[global] Instance result_ret : MRet result := fun A a => Ok a.
#[global] Instance result_bind : MBind result := fun A B k m =>
  match m with
  | Ok a => k a
  | Fault f => Fault f
  end.

(** ** libc string functions *)

(** The value of a character as [unsigned char]. *)
Definition uchar (ch : ascii) : Z := Z.of_N (N_of_ascii ch).

(** [strcmp]: the sign of the first difference, characters compared as
    [unsigned char]; the end of a string is smaller than any character. *)
Fixpoint strcmp (a b : string) : Z :=
  match a, b with
  | EmptyString, EmptyString => 0
  | EmptyString, String _ _ => -1
  | String _ _, EmptyString => 1
  | String ca a', String cb b' =>
      if uchar ca =? uchar cb then strcmp a' b'
      else if uchar ca <? uchar cb then -1 else 1
  end.

(** [strchr(s, c) != NULL] for a character [c] other than NUL. *)
Fixpoint strchr (s : string) (c : ascii) : bool :=
  match s with
  | EmptyString => false
  | String ch s' => if Ascii.eqb ch c then true else strchr s' c
  end.

(** The delimiters handed to [strtok]: [" \t\n\r"]. *)
Definition is_delimiter (ch : ascii) : bool :=
  Ascii.eqb ch " " || Ascii.eqb ch "009" || Ascii.eqb ch "010" || Ascii.eqb ch "013".

(** All the tokens that [strtok(line, delims)] followed by
    [strtok(NULL, delims)] until NULL returns, in order: the maximal runs of
    characters of [line] that are not delimiters. [cur] is the token being
    read. *)
Fixpoint strtok_from (delim : ascii -> bool) (cur : string) (s : string) : list string :=
  match s with
  | EmptyString => if decide (cur = "") then [] else [cur]
  | String ch s' =>
      if delim ch then
        (if decide (cur = "") then strtok_from delim "" s'
         else cur :: strtok_from delim "" s')
      else strtok_from delim (cur +:+ String ch "") s'
  end.

Definition strtok_all (delim : ascii -> bool) (line : string) : list string :=
  strtok_from delim "" line.

(** The buffers that successive [fgets(line, size, file)] calls fill until
    end of file: each holds at most [size - 1] characters and ends after the
    first newline. [buf] is the buffer being filled and [room] the number of
    characters it can still take. *)
Fixpoint fgets_from (size : nat) (buf : string) (room : nat) (file : string) : list string :=
  match file with
  | EmptyString => if decide (buf = "") then [] else [buf]
  | String ch file' =>
      let buf' := buf +:+ String ch "" in
      if Ascii.eqb ch "010" || (room =? 1)%nat
      then buf' :: fgets_from size "" (size - 1)%nat file'
      else fgets_from size buf' (room - 1)%nat file'
  end.

Definition fgets_all (size : nat) (file : string) : list string :=
  fgets_from size "" (size - 1)%nat file.

(** The C string that a buffer holds: its characters before the first NUL.
    [fgets] stores the bytes that it reads, a NUL byte of the file included,
    and [strtok] reads the buffer as a string. *)
Fixpoint c_string (buffer : string) : string :=
  match buffer with
  | EmptyString => EmptyString
  | String ch buffer' =>
      if Ascii.eqb ch "000" then EmptyString else String ch (c_string buffer')
  end.

(** A string without a newline. *)
Definition no_newline (s : string) : bool :=
  forallb (fun ch => negb (Ascii.eqb ch "010")) (list_ascii_of_string s).

(** [for (size_t i = start; i < start + n; ++i) body], for a body that can
    fault. *)
Fixpoint for_loop {St : Type} (body : nat -> St -> result St) (start n : nat)
    (s : St) : result St :=
  match n with
  | O => Ok s
  | S n' => s' ← body start s; for_loop body (S start) n' s'
  end.

(** A loop over the cells of a list by a body that can fault. *)
Fixpoint fold_result {A St : Type} (body : St -> A -> result St) (l : list A)
    (s : St) : result St :=
  match l with
  | [] => Ok s
  | x :: l' => s' ← body s x; fold_result body l' s'
  end.

(** ** MarkovContext *)

(** [char *previous_words[MARKOV_CONTEXT_SIZE]]: a slot is NULL ([None]) or
    points to a word. *)
Record MarkovContext : Type := { previous_words : list (option string) }.

(** [context->previous_words[i]] *)
Definition word_at (context : MarkovContext) (i : nat) : option string :=
  previous_words context !!! i.

(** [context->previous_words[i] = word] *)
Definition set_word (context : MarkovContext) (i : nat) (word : option string)
  : MarkovContext :=
  {| previous_words := <[i := word]> (previous_words context) |}.

(** A context has exactly [MARKOV_CONTEXT_SIZE] slots. *)
Definition context_wf (context : MarkovContext) : Prop :=
  length (previous_words context) = MARKOV_CONTEXT_SIZE.

Definition markov_context_new : MarkovContext :=
  {| previous_words := replicate MARKOV_CONTEXT_SIZE None |}.

Definition markov_context_reset (context : option MarkovContext) : MarkovContext :=
  match context with
  | None => markov_context_new
  | Some context =>
      foldl (fun context i => set_word context i None) context
            (seq 0 MARKOV_CONTEXT_SIZE)
  end.

(** [strdup(word)] dereferences [word]: a NULL [word] is a fault. The word
    that leaves the window is freed, which changes no value. *)
Definition markov_context_push_word (context : option MarkovContext)
    (word : option string) : result MarkovContext :=
  let context := match context with
                 | None => markov_context_new
                 | Some context => context
                 end in
  let last_index := (MARKOV_CONTEXT_SIZE - 1)%nat in
  match word with
  | None => Fault NullDeref
  | Some word =>
      let new_word := word in
      let context :=
        foldl (fun context i => set_word context i (word_at context (i + 1)))
              context (seq 0 last_index) in
      Ok (set_word context last_index (Some new_word))
  end.

(** Returns NULL for a NULL argument; otherwise pushes every word of the
    original that is not NULL, in order, into a new context. *)
Definition markov_context_copy (original_context : option MarkovContext)
  : result (option MarkovContext) :=
  match original_context with
  | None => Ok None
  | Some original_context =>
      new_context ←
        for_loop (fun i new_context =>
                    match word_at original_context i with
                    | Some word =>
                        markov_context_push_word (Some new_context) (Some word)
                    | None => Ok new_context
                    end)
                 0 MARKOV_CONTEXT_SIZE markov_context_new;
      Ok (Some new_context)
  end.

Definition markov_context_check_match (a b : MarkovContext) : bool :=
  forallb (fun i =>
             match word_at a i, word_at b i with
             | None, None => true
             | None, Some _ | Some _, None => false
             | Some word_a, Some word_b => strcmp word_a word_b =? 0
             end)
          (seq 0 MARKOV_CONTEXT_SIZE).

(** ** MarkovContext in memory

    The same functions on pointers, with the heap they allocate in: a
    context is the address of its structure, and a slot holds NULL or the
    address of a string that [strdup] allocated. *)

Module Mem.

Definition addr : Type := nat.

Inductive block : Type :=
| Chars (s : string)                       (* the buffer of a C string *)
| Context (slots : list (option addr)).    (* a [MarkovContext] structure *)

(** The blocks allocated so far, the block of address [a] at index [a];
    [None] once the block is freed. No address is handed out twice. *)
Abbreviation heap := (list (option block)).

(** A computation on the heap that can fault. *)
Definition M (A : Type) : Type := heap -> result (A * heap).

#[global] Instance M_ret : MRet M := fun A (a : A) (h : heap) => Ok (a, h).
#[global] Instance M_bind : MBind M := fun A B (k : A -> M B) (m : M A) (h : heap) =>
  match m h with
  | Ok (a, h') => k a h'
  | Fault f => Fault f
  end.

Definition fail {A : Type} (f : fault) : M A := fun _ => Fault f.

(** [malloc]/[calloc] of a block with contents [b]; allocation succeeds. *)
Definition malloc (b : block) : M addr :=
  fun h => Ok (length h, h ++ [Some b]).

(** [free(p)]; [free(NULL)] does nothing. *)
Definition free (p : option addr) : M unit :=
  match p with
  | None => mret ()
  | Some a => fun h =>
      match h !! a with
      | Some (Some _) => Ok ((), <[a := None]> h)
      | _ => Fault InvalidPointer
      end
  end.

(** The string at address [a]. *)
Definition load_chars (a : addr) : M string :=
  fun h =>
    match h !! a with
    | Some (Some (Chars s)) => Ok (s, h)
    | _ => Fault InvalidPointer
    end.

(** [context->previous_words[i]] *)
Definition load_word (context : addr) (i : nat) : M (option addr) :=
  fun h =>
    match h !! context with
    | Some (Some (Context slots)) =>
        match slots !! i with
        | Some p => Ok (p, h)
        | None => Fault OutOfBounds
        end
    | _ => Fault InvalidPointer
    end.

(** [context->previous_words[i] = p] *)
Definition store_word (context : addr) (i : nat) (p : option addr) : M unit :=
  fun h =>
    match h !! context with
    | Some (Some (Context slots)) =>
        if decide (i < length slots)%nat
        then Ok ((), <[context := Some (Context (<[i := p]> slots))]> h)
        else Fault OutOfBounds
    | _ => Fault InvalidPointer
    end.

Definition strdup (word : option addr) : M addr :=
  match word with
  | None => fail NullDeref
  | Some a => s ← load_chars a; malloc (Chars s)
  end.

(** [strcmp] on two pointers to strings. *)
Definition strcmp_at (a b : addr) : M Z :=
  word_a ← load_chars a; word_b ← load_chars b; mret (strcmp word_a word_b).

Fixpoint for_loop {St : Type} (body : nat -> St -> M St) (start n : nat) (s : St)
  : M St :=
  match n with
  | O => mret s
  | S n' => s' ← body start s; for_loop body (S start) n' s'
  end.

Definition markov_context_new : M addr :=
  malloc (Context (replicate MARKOV_CONTEXT_SIZE None)).

Definition markov_context_reset (context : option addr) : M addr :=
  match context with
  | None => markov_context_new
  | Some context =>
      _ ← for_loop (fun i _ =>
                      p ← load_word context i;
                      _ ← free p;
                      store_word context i None)
                   0 MARKOV_CONTEXT_SIZE ();
      mret context
  end.

Definition markov_context_push_word (context : option addr) (word : option addr)
  : M addr :=
  context ← match context with
            | None => markov_context_new
            | Some context => mret context
            end;
  let last_index := (MARKOV_CONTEXT_SIZE - 1)%nat in
  new_word ← strdup word;
  first ← load_word context 0;
  _ ← (if first is Some _ then free first else mret ());
  _ ← for_loop (fun i _ =>
                  p ← load_word context (i + 1);
                  store_word context i p)
               0 last_index ();
  _ ← store_word context last_index (Some new_word);
  mret context.

(** The loop of [markov_context_check_match] from index [i], [n] slots
    being left. *)
Fixpoint check_match_from (a b : addr) (i n : nat) : M bool :=
  match n with
  | O => mret true
  | S n' =>
      word_a ← load_word a i;
      word_b ← load_word b i;
      match word_a, word_b with
      | None, None => check_match_from a b (S i) n'
      | None, Some _ | Some _, None => mret false
      | Some word_a, Some word_b =>
          c ← strcmp_at word_a word_b;
          if c =? 0 then check_match_from a b (S i) n' else mret false
      end
  end.

Definition markov_context_check_match (a b : addr) : M bool :=
  check_match_from a b 0 MARKOV_CONTEXT_SIZE.

Definition markov_context_copy (original_context : option addr)
  : M (option addr) :=
  match original_context with
  | None => mret None
  | Some original_context =>
      new_context ← markov_context_new;
      new_context ←
        for_loop (fun i new_context =>
                    word ← load_word original_context i;
                    if word is Some _
                    then markov_context_push_word (Some new_context) word
                    else mret new_context)
                 0 MARKOV_CONTEXT_SIZE new_context;
      mret (Some new_context)
  end.

(** [markov_context_free]: the words that are not NULL, then the
    structure. *)
Definition markov_context_free (context : option addr) : M unit :=
  match context with
  | None => mret ()
  | Some context =>
      _ ← for_loop (fun i _ =>
                      p ← load_word context i;
                      if p is Some _ then free p else mret ())
                   0 MARKOV_CONTEXT_SIZE ();
      free (Some context)
  end.

(** The block [b] is live at address [a]. *)
Definition cell (h : heap) (a : addr) (b : block) : Prop :=
  h !! a = Some (Some b).

(** What a slot holds: NULL, or the string it points to; [None] for a
    pointer to no live string. *)
Definition view_word (h : heap) (p : option addr) : option (option string) :=
  match p with
  | None => Some None
  | Some a =>
      match h !! a with
      | Some (Some (Chars s)) => Some (Some s)
      | _ => None
      end
  end.

(** The context that the structure at address [context] holds. *)
Definition view (h : heap) (context : addr) : option MarkovContext :=
  match h !! context with
  | Some (Some (Context slots)) =>
      words ← mapM (view_word h) slots;
      Some {| previous_words := words |}
  | _ => None
  end.

(** The structure at [context] holds the words [words], each in a block of
    its own. *)
Definition owns (h : heap) (context : addr) (words : MarkovContext) : Prop :=
  exists slots : list (option addr),
    cell h context (Context slots) /\
    Forall2 (fun p x => view_word h p = Some x) slots (previous_words words) /\
    forall (i j : nat) (a : addr),
      slots !! i = Some (Some a) -> slots !! j = Some (Some a) -> i = j.

(** [h'] has every block of [h] but, possibly, the one at [c]. *)
Definition agree_but (c : addr) (h h' : heap) : Prop :=
  forall a : addr, (a < length h)%nat -> a <> c -> h' !! a = h !! a.

(** [h'] has every block of [h]: [h] is what [h'] was before it grew. *)
Definition extends (h h' : heap) : Prop :=
  forall a : addr, (a < length h)%nat -> h' !! a = h !! a.

End Mem.

(** Equality of two slots: an unfilled slot equals only an unfilled slot,
    two filled slots are equal when they hold the same word. *)
Definition slot_equal (x y : option string) : Prop :=
  match x, y with
  | None, None => True
  | Some word_x, Some word_y => word_x = word_y
  | _, _ => False
  end.

(** The unfilled slots of a context form a prefix of the window: every slot
    after a filled slot is filled. *)
Definition filled_suffix (context : MarkovContext) : Prop :=
  forall i j : nat,
    (i < j < MARKOV_CONTEXT_SIZE)%nat ->
    is_Some (word_at context i) -> is_Some (word_at context j).

(** The contexts that [markov_context_new], [markov_context_push_word] and
    [markov_context_reset] build, from a context or from NULL. *)
Inductive reachable : MarkovContext -> Prop :=
| reachable_new : reachable markov_context_new
| reachable_push (context : MarkovContext) (word : string)
    (context' : MarkovContext) :
    reachable context ->
    markov_context_push_word (Some context) (Some word) = Ok context' ->
    reachable context'
| reachable_push_null (word : string) (context' : MarkovContext) :
    markov_context_push_word None (Some word) = Ok context' ->
    reachable context'
| reachable_reset (context : MarkovContext) :
    reachable context ->
    reachable (markov_context_reset (Some context))
| reachable_reset_null : reachable (markov_context_reset None).

Section Markov.

(** Whether plain [char] is a signed type on the platform. *)
Variable char_signed : bool.

(** [int c = *word]: the value of a [char] read into an [int]. *)
Definition char_to_int (ch : ascii) : Z :=
  if char_signed && (128 <=? uchar ch) then uchar ch - 256 else uchar ch.

(** [hash = ((hash << 5) + hash)] on [size_t]. *)
Definition hash_step (hash : Z) : Z :=
  to_size_t (to_size_t (Z.shiftl hash 5) + hash).

(** [while ((c = *word++)) hash = ((hash << 5) + hash) + c;] the [int] [c]
    is converted to [size_t] by the addition. *)
Fixpoint hash_word (hash : Z) (word : string) : Z :=
  match word with
  | EmptyString => hash
  | String ch word' =>
      let c := char_to_int ch in
      hash_word (to_size_t (hash_step hash + to_size_t c)) word'
  end.

Definition markov_context_get_hash (context : MarkovContext) : Z :=
  foldl (fun hash i =>
           match word_at context i with
           | Some word => hash_word hash word
           | None => hash_step hash
           end)
        5381 (seq 0 MARKOV_CONTEXT_SIZE).

(** ** MarkovValue *)

(** A cell of the linked list of word/count pairs; [count] is a [size_t]. *)
Record MarkovValue : Type := { value_word : string; value_count : Z }.

Definition markov_value_new (word : string) : MarkovValue :=
  {| value_word := word; value_count := 1 |}.

(** The first loop of [markov_value_add_word]: [count++] on the first cell
    that holds [word]; [None] when the loop reaches the end of the list. *)
Fixpoint value_increment (value_ptr : list MarkovValue) (word : string)
  : option (list MarkovValue) :=
  match value_ptr with
  | [] => None
  | cell :: next =>
      if strcmp (value_word cell) word =? 0
      then Some ({| value_word := value_word cell;
                    value_count := to_size_t (value_count cell + 1) |} :: next)
      else cons cell <$> value_increment next word
  end.

Definition markov_value_add_word (value : list MarkovValue) (word : string)
  : list MarkovValue :=
  match value_increment value word with
  | Some value' => value'
  | None => markov_value_new word :: value
  end.

(** [total_count], summed in [size_t]. *)
Definition value_total_count (value : list MarkovValue) : Z :=
  foldl (fun total_count cell => to_size_t (total_count + value_count cell)) 0 value.

(** The second loop of [markov_value_get_random]; [None] when it reaches the
    end of the list. *)
Fixpoint value_walk (value_ptr : list MarkovValue) (r : Z) : option string :=
  match value_ptr with
  | [] => None
  | cell :: next =>
      if r <? value_count cell then Some (value_word cell)
      else value_walk next (to_size_t (r - value_count cell))
  end.

(** [rnd] is the value that the call of [rand()] returns. *)
Definition markov_value_get_random (value : list MarkovValue) (rnd : Z)
  : result string :=
  let total_count := value_total_count value in
  if total_count =? 0 then Fault DivByZero
  else
    let r := to_size_t rnd mod total_count in
    match value_walk value r with
    | Some word => Ok word
    | None =>
        match value with
        | [] => Fault NullDeref
        | cell :: _ => Ok (value_word cell)
        end
    end.

(** ** MarkovNode *)

Record MarkovNode : Type :=
  { node_context : MarkovContext; node_value : list MarkovValue }.

(** The loop of [markov_node_add_node]: adds [word] to the first node whose
    context matches; [None] when no node matches. *)
Fixpoint node_update (node_ptr : list MarkovNode) (context : MarkovContext)
    (word : string) : option (list MarkovNode) :=
  match node_ptr with
  | [] => None
  | node :: next =>
      if markov_context_check_match (node_context node) context
      then Some ({| node_context := node_context node;
                    node_value := markov_value_add_word (node_value node) word |}
                   :: next)
      else cons node <$> node_update next context word
  end.

(** [markov_context_copy] returns NULL for NULL only; a NULL context in a
    node is dereferenced by the next comparison. *)
Definition markov_node_add_node (node : list MarkovNode) (context : MarkovContext)
    (word : string) : result (list MarkovNode) :=
  match node_update node context word with
  | Some node' => Ok node'
  | None =>
      new_context ← markov_context_copy (Some context);
      match new_context with
      | None => Fault NullDeref
      | Some new_context =>
          Ok ({| node_context := new_context;
                 node_value := markov_value_add_word [] word |} :: node)
      end
  end.

(** ** MarkovModel *)

Record MarkovModel : Type :=
  { model_size : Z; model_nodes : list (list MarkovNode) }.

Definition markov_model_new (size : Z) : MarkovModel :=
  {| model_size := size; model_nodes := replicate (Z.to_nat size) [] |}.

(** A model has [size] buckets, and [size] is a [size_t]. *)
Definition model_wf (model : MarkovModel) : Prop :=
  0 <= model_size model < SIZE_MODULUS /\
  length (model_nodes model) = Z.to_nat (model_size model).

(** [markov_context_get_hash(context) % model->size] *)
Definition bucket_index (model : MarkovModel) (context : MarkovContext)
  : result nat :=
  if model_size model =? 0 then Fault DivByZero
  else Ok (Z.to_nat (markov_context_get_hash context mod model_size model)).

Definition markov_model_add_data (model : option MarkovModel)
    (context : MarkovContext) (word : string) : result (option MarkovModel) :=
  match model with
  | None => Ok None
  | Some model =>
      index ← bucket_index model context;
      match model_nodes model !! index with
      | None => Fault OutOfBounds
      | Some bucket =>
          bucket' ← markov_node_add_node bucket context word;
          Ok (Some {| model_size := model_size model;
                      model_nodes := <[index := bucket']> (model_nodes model) |})
      end
  end.

(** The values that the successive calls of [rand()] return. *)
Variable rand : nat -> Z.

(** The loop of [markov_model_get_next] over a bucket; [calls] counts the
    calls of [rand()] made so far. *)
Fixpoint node_lookup (node : list MarkovNode) (context : MarkovContext)
    (calls : nat) : result (option string * nat) :=
  match node with
  | [] => Ok (None, calls)
  | cell :: next =>
      if markov_context_check_match (node_context cell) context
      then word ← markov_value_get_random (node_value cell) (rand calls);
           Ok (Some word, S calls)
      else node_lookup next context calls
  end.

Definition markov_model_get_next (model : option MarkovModel)
    (context : MarkovContext) (calls : nat) : result (option string * nat) :=
  match model with
  | None => Fault NullDeref
  | Some model =>
      index ← bucket_index model context;
      match model_nodes model !! index with
      | None => Fault OutOfBounds
      | Some node => node_lookup node context calls
      end
  end.

(** ** Trainer *)

(** [word[0]]; the terminating NUL for an empty string. *)
Definition first_char (word : string) : ascii :=
  match word with
  | EmptyString => "000"%char
  | String ch _ => ch
  end.

(** The inner loop of [markov_model_load_file] for one token. *)
Definition load_token (state : option MarkovModel * MarkovContext) (word : string)
  : result (option MarkovModel * MarkovContext) :=
  let '(model, context) := state in
  model ← markov_model_add_data model context word;
  context ← markov_context_push_word (Some context) (Some word);
  Ok (model, context).

(** The body of the [fgets] loop for the buffer [line]. *)
Definition load_line (state : option MarkovModel * MarkovContext) (line : string)
  : result (option MarkovModel * MarkovContext) :=
  let '(model, context) := state in
  match strtok_all is_delimiter line with
  | [] => Ok (model, markov_context_reset (Some context))
  | word :: rest =>
      if negb (Ascii.eqb (first_char word) "-")
      then fold_result load_token (word :: rest) (model, context)
      else Ok (model, context)
  end.

(** The [fgets] loop over the buffers [lines]. *)
Definition load_lines (lines : list string)
    (state : option MarkovModel * MarkovContext)
  : result (option MarkovModel * MarkovContext) :=
  fold_result load_line lines state.

(** The strings that the [fgets] loop hands to [strtok], for the contents of
    a file: the C string of every buffer of [char line[1024]]. *)
Definition file_lines (contents : string) : list string :=
  c_string <$> fgets_all LINE_BUFFER_SIZE contents.

(** [file] is the contents of the file, [None] when it cannot be opened. *)
Definition markov_model_load_file (file : option string)
  : result (option MarkovModel) :=
  match file with
  | None => Ok None
  | Some contents =>
      let context := markov_context_new in
      let model := markov_model_new HASH_MAP_SIZE in
      '(model, _) ← load_lines (file_lines contents) (Some model, context);
      Ok model
  end.

(** ** Generator *)

Definition check_end_condition (word : string) : bool :=
  strchr word "." || strchr word "!" || strchr word "?".

Definition add_word_to_quote (quote word : option string) : option string :=
  match quote, word with
  | Some q, Some w =>
      let q := if decide (q = "") then q else q +:+ " " in
      Some (q +:+ w)
  | _, _ => quote
  end.

(** The loop of [markov_model_generate_quote]. [counter] grows by one at the
    end of every iteration that does not leave the loop, and nowhere else:
    [iterations] is the number of values [counter <= MAX_QUOTE_LENGTH] still
    to come, [MAX_QUOTE_LENGTH + 1 - counter]. [calls] counts the calls of
    [rand()]. *)
Fixpoint generate_quote_loop (iterations : nat) (model : option MarkovModel)
    (context : MarkovContext) (quote : option string) (calls : nat)
  : result (option string) :=
  match iterations with
  | O => Ok quote
  | S iterations' =>
      '(word, calls) ← markov_model_get_next model context calls;
      context ← markov_context_push_word (Some context) word;
      match word with
      | None => Ok quote
      | Some w =>
          let quote := add_word_to_quote quote word in
          if check_end_condition w then Ok quote
          else generate_quote_loop iterations' model context quote calls
      end
  end.

(** [calls] is the number of calls of [rand()] made before. *)
Definition markov_model_generate_quote (model : option MarkovModel) (calls : nat)
  : result (option string) :=
  let context := markov_context_new in
  let counter := 0 in
  let quote := Some "" in
  generate_quote_loop (Z.to_nat (MAX_QUOTE_LENGTH + 1 - counter)) model context
                      quote calls.

(** The words of a quote: its maximal runs of characters other than the
    space that [add_word_to_quote] puts between two words. *)
Definition quote_words (quote : string) : list string :=
  strtok_all (fun ch => Ascii.eqb ch " ") quote.

(** ** Definitions of the specification *)

(** The djb2 scheme for a value [value ch] of each character: seed 5381,
    [hash = hash * 33 + value ch] for every character of a filled slot, one
    step [hash = hash * 33] for an unfilled slot, the slots taken in order;
    the arithmetic is that of [size_t]. *)
Definition djb2_word (value : ascii -> Z) (hash : Z) (word : string) : Z :=
  foldl (fun hash ch => (hash * 33 + value ch) mod SIZE_MODULUS) hash
        (list_ascii_of_string word).

Definition djb2_slot (value : ascii -> Z) (hash : Z) (slot : option string) : Z :=
  match slot with
  | Some word => djb2_word value hash word
  | None => (hash * 33) mod SIZE_MODULUS
  end.

Definition djb2_with (value : ascii -> Z) (context : MarkovContext) : Z :=
  foldl (djb2_slot value) 5381 (previous_words context).

(** The djb2 reference of the specification: [hash = hash * 33 + byte], the
    byte being the character as a number from 0 to 255. *)
Definition djb2_reference (context : MarkovContext) : Z :=
  djb2_with uchar context.

(** Every byte of every word of the context is below 128. *)
Definition seven_bit (context : MarkovContext) : bool :=
  forallb (fun slot =>
             match slot with
             | Some word =>
                 forallb (fun ch => uchar ch <? 128) (list_ascii_of_string word)
             | None => true
             end)
          (previous_words context).

(** The sum of the counts of a table, and the sum over its first [i]
    entries. *)
Definition sum_counts (value : list MarkovValue) : Z :=
  foldr (fun cell total => value_count cell + total) 0 value.

Definition cumulative (value : list MarkovValue) (i : nat) : Z :=
  sum_counts (take i value).

(** The count that a table holds for [word], if [word] is a key. *)
Fixpoint table_count (value : list MarkovValue) (word : string) : option Z :=
  match value with
  | [] => None
  | cell :: next =>
      if decide (value_word cell = word) then Some (value_count cell)
      else table_count next word
  end.

(** The table that adding the words of [words] in order builds, starting
    from no table. *)
Definition table_of (words : list string) : list MarkovValue :=
  foldl markov_value_add_word [] words.

(** The invariant of a table that holds the words of [words]. *)
Definition table_holds (words : list string) (value : list MarkovValue) : Prop :=
  NoDup (value_word <$> value) /\
  sum_counts value = Z.of_nat (length words) /\
  forall word,
    table_count value word =
    if decide (word ∈ words)
    then Some (Z.of_nat (count_occ string_dec words word))
    else None.

(** The successor words that a model stores. *)
Definition model_words (model : MarkovModel) : list string :=
  value_word <$> concat (node_value <$> concat (model_nodes model)).

(** A word as [strtok] yields it, without a sentence terminator: not empty,
    without a space, without ['.'], ['!'] or ['?']. *)
Definition plain_word (word : string) : bool :=
  negb (bool_decide (word = "")) && negb (strchr word " ")
  && negb (check_end_condition word).

(** No context of the model matches [context]. *)
Definition no_entry (model : MarkovModel) (context : MarkovContext) : Prop :=
  forall (bucket : list MarkovNode) (node : MarkovNode),
    bucket ∈ model_nodes model -> node ∈ bucket ->
    markov_context_check_match (node_context node) context = false.

End Markov.

(** ** A corpus for the generator *)

(** Five times the same word: the contexts are the windows of zero to three
    a, each followed by a. *)
Definition repeated_word_corpus : string := "a a a a a".

(** The model that [markov_model_load_file] builds from it. *)
Definition repeated_word_model : MarkovModel :=
  Eval vm_compute in
    match markov_model_load_file true (Some repeated_word_corpus) with
    | Ok (Some model) => model
    | _ => markov_model_new HASH_MAP_SIZE
    end.

(** The word a, [MAX_QUOTE_LENGTH + 1] times. *)
Definition repeated_word_quote : string :=
  String.concat " " (replicate (Z.to_nat (MAX_QUOTE_LENGTH + 1)) "a").

(** ** A line longer than the buffer *)

(** A line of 1024 characters: a dash, 1022 spaces and the word b. *)
Definition long_skipped_line : string :=
  "-" +:+ string_of_list_ascii (replicate 1022 " "%char) +:+ "b".

(** ** main *)

Section Main.

Variable char_signed : bool.
Variable rand : nat -> Z.

(** [main]: the model of the file, then one quote. [file] is the contents of
    [quotes.txt], [None] when it cannot be opened; the result is the quote
    that [printf] prints. [rand] is the sequence that [srand(time(NULL))]
    selects. *)
Definition main (file : option string) : result (option string) :=
  model ← markov_model_load_file char_signed file;
  markov_model_generate_quote char_signed rand model 0.

End Main.

(** ** Tables of a model, and the transitions of a corpus *)

Section Corpus.

Variable char_signed : bool.

(** The table of the first node of a bucket whose context matches
    [context]: the table that [markov_model_get_next] samples. *)
Fixpoint node_find (node : list MarkovNode) (context : MarkovContext)
  : option (list MarkovValue) :=
  match node with
  | [] => None
  | cell :: next =>
      if markov_context_check_match (node_context cell) context
      then Some (node_value cell)
      else node_find next context
  end.

(** The table that the model holds for [context], in the bucket of its
    hash. *)
Definition model_find (model : MarkovModel) (context : MarkovContext)
  : option (list MarkovValue) :=
  match bucket_index char_signed model context with
  | Ok index => node_find (default [] (model_nodes model !! index)) context
  | Fault _ => None
  end.

(** [markov_model_add_data] for the pairs of a list, in order. *)
Definition add_all (pairs : list (MarkovContext * string))
    (model : option MarkovModel) : result (option MarkovModel) :=
  fold_result (fun model pair =>
                 markov_model_add_data char_signed model pair.1 pair.2)
              pairs model.

(** The words of the pairs whose context matches [context], in order. *)
Definition followers (pairs : list (MarkovContext * string))
    (context : MarkovContext) : list string :=
  snd <$> filter (fun pair => markov_context_check_match pair.1 context = true)
                 pairs.

End Corpus.

(** [markov_context_push_word] for the words of a list, in order. *)
Definition push_words (words : list string) (context : MarkovContext)
  : result MarkovContext :=
  fold_result (fun context word =>
                 markov_context_push_word (Some context) (Some word))
              words context.

(** The window after the words [previous], pushed since the context was new
    or reset: the last [MARKOV_CONTEXT_SIZE] of them, after unfilled slots
    when they are fewer. *)
Definition window (previous : list string) : MarkovContext :=
  {| previous_words :=
       drop (length previous)
            (replicate MARKOV_CONTEXT_SIZE None ++ (Some <$> previous)) |}.

(** The transitions of the tokens [words] that come after [previous]: each
    token with the window of the tokens before it. *)
Fixpoint transitions (previous words : list string)
  : list (MarkovContext * string) :=
  match words with
  | [] => []
  | word :: words' =>
      (window previous, word) :: transitions (previous ++ [word]) words'
  end.

(** The tokens of a line, none for a line that is skipped. *)
Definition line_tokens (line : string) : list string :=
  match strtok_all is_delimiter line with
  | [] => []
  | word :: rest =>
      if Ascii.eqb (first_char word) "-" then [] else word :: rest
  end.

(** The tokens trained since the last blank line, after the lines [lines],
    [previous] being those before. *)
Fixpoint corpus_previous (previous : list string) (lines : list string)
  : list string :=
  match lines with
  | [] => previous
  | line :: lines' =>
      match strtok_all is_delimiter line with
      | [] => corpus_previous [] lines'
      | _ => corpus_previous (previous ++ line_tokens line) lines'
      end
  end.

(** The transitions of a corpus: those of the tokens of each line that is
    not skipped; a blank line starts again from no token. *)
Fixpoint corpus_transitions (previous : list string) (lines : list string)
  : list (MarkovContext * string) :=
  match lines with
  | [] => []
  | line :: lines' =>
      match strtok_all is_delimiter line with
      | [] => corpus_transitions [] lines'
      | _ =>
          transitions previous (line_tokens line)
          ++ corpus_transitions (previous ++ line_tokens line) lines'
      end
  end.

(** A token is not empty and holds no delimiter. *)
Definition token_of (delim : ascii -> bool) (word : string) : Prop :=
  word <> "" /\
  forallb (fun ch => negb (delim ch)) (list_ascii_of_string word) = true.

(** How a quote ends: after [MAX_QUOTE_LENGTH + 1] words without a
    terminator, or at its first word with a terminator. *)
Definition quote_ending (words : list string) : Prop :=
  (Z.of_nat (length words) = MAX_QUOTE_LENGTH + 1 /\
   Forall (fun word => check_end_condition word = false) words) \/
  (exists (before : list string) (final : string),
      words = before ++ [final] /\
      Z.of_nat (length words) <= MAX_QUOTE_LENGTH + 1 /\
      Forall (fun word => check_end_condition word = false) before /\
      check_end_condition final = true).

(** * Properties *)

Arguments sum_counts : simpl never.
Arguments to_size_t : simpl never.

Section Properties.

Variable char_signed : bool.
Variable rand : nat -> Z.

(** ** Properties of the libc models *)

Lemma uchar_inj (x y : ascii) : uchar x = uchar y -> x = y.
Proof.
  unfold uchar. intros H. apply N2Z.inj in H.
  rewrite <- (ascii_N_embedding x), <- (ascii_N_embedding y). by rewrite H.
Qed.

Lemma strcmp_eq (a b : string) : strcmp a b = 0 <-> a = b.
Proof.
  revert b. induction a as [|ca a IH]; intros [|cb b]; simpl; try done.
  destruct (Z.eqb_spec (uchar ca) (uchar cb)) as [Heq|Hne].
  - apply uchar_inj in Heq as ->. rewrite IH. split; congruence.
  - split.
    + destruct (uchar ca <? uchar cb); discriminate.
    + intros [= -> _]. done.
Qed.

Lemma strcmp_refl (a : string) : strcmp a a = 0.
Proof. by apply strcmp_eq. Qed.

(** ** Contexts: shape *)

Lemma context_wf_inv (context : MarkovContext) :
  context_wf context ->
  exists x y z, context = {| previous_words := [x; y; z] |}.
Proof.
  destruct context as [[|x [|y [|z [|? ?]]]]]; unfold context_wf; simpl;
    try discriminate.
  intros _. by exists x, y, z.
Qed.

Lemma filled_suffix_slots (x y z : option string) :
  filled_suffix {| previous_words := [x; y; z] |} <->
  (is_Some x -> is_Some y) /\ (is_Some y -> is_Some z).
Proof.
  unfold filled_suffix, MARKOV_CONTEXT_SIZE. split.
  - intros H. split; [apply (H 0%nat 1%nat) | apply (H 1%nat 2%nat)]; lia.
  - intros [Hxy Hyz] i j [Hij Hj].
    destruct i as [|[|[|i]]], j as [|[|[|j]]]; try lia; cbn; auto.
Qed.

Lemma slot_test_spec (x y : option string) :
  match x, y with
  | None, None => true
  | None, Some _ | Some _, None => false
  | Some word_x, Some word_y => strcmp word_x word_y =? 0
  end = true <-> slot_equal x y.
Proof.
  destruct x as [wx|], y as [wy|]; simpl; try done.
  by rewrite Z.eqb_eq, strcmp_eq.
Qed.

Lemma slot_equal_eq (x y : option string) : slot_equal x y <-> x = y.
Proof. destruct x, y; simpl; split; try done; congruence. Qed.

Lemma check_match_slots (a b : MarkovContext) :
  markov_context_check_match a b = true <->
  forall i : nat, (i < MARKOV_CONTEXT_SIZE)%nat ->
                  slot_equal (word_at a i) (word_at b i).
Proof.
  unfold markov_context_check_match. rewrite forallb_forall. split.
  - intros H i Hi. apply slot_test_spec, H, in_seq. lia.
  - intros H i Hi%in_seq. apply slot_test_spec, H. lia.
Qed.

Lemma check_match_refl (a : MarkovContext) :
  markov_context_check_match a a = true.
Proof. apply check_match_slots. intros i _. by apply slot_equal_eq. Qed.

Lemma check_match_sym (a b : MarkovContext) :
  markov_context_check_match a b = true ->
  markov_context_check_match b a = true.
Proof.
  rewrite !check_match_slots. intros H i Hi.
  apply slot_equal_eq. symmetry. by apply slot_equal_eq, H.
Qed.

Lemma check_match_trans (a b c : MarkovContext) :
  markov_context_check_match a b = true ->
  markov_context_check_match b c = true ->
  markov_context_check_match a c = true.
Proof.
  rewrite !check_match_slots. intros Hab Hbc i Hi.
  apply slot_equal_eq. transitivity (word_at b i); apply slot_equal_eq; auto.
Qed.

(** C10. [markov_context_check_match a b] holds exactly when every slot of
    [a] equals the slot of [b] at the same index, an unfilled slot being
    equal to an unfilled slot only; the relation is reflexive, symmetric and
    transitive. *)
Theorem context_equality :
  (forall a b : MarkovContext,
      markov_context_check_match a b = true <->
      forall i : nat, (i < MARKOV_CONTEXT_SIZE)%nat ->
                      slot_equal (word_at a i) (word_at b i)) /\
  (forall a, markov_context_check_match a a = true) /\
  (forall a b, markov_context_check_match a b = true ->
               markov_context_check_match b a = true) /\
  (forall a b c, markov_context_check_match a b = true ->
                 markov_context_check_match b c = true ->
                 markov_context_check_match a c = true).
Proof.
  split; [exact check_match_slots|].
  split; [exact check_match_refl|].
  split; [exact check_match_sym | exact check_match_trans].
Qed.

(** ** Contexts: the windows that the program builds *)

Lemma reachable_shape (context : MarkovContext) :
  reachable context -> context_wf context /\ filled_suffix context.
Proof.
  induction 1 as [|context word context' _ [Hwf Hfs] Hpush
                  |word context' Hpush|context _ [Hwf Hfs]|].
  - split; [done|]. by apply (filled_suffix_slots None None None).
  - destruct (context_wf_inv _ Hwf) as (x & y & z & ->).
    cbn in Hpush. injection Hpush as <-. split; [done|].
    apply filled_suffix_slots in Hfs as [_ Hyz].
    apply filled_suffix_slots. split; [done | by eauto].
  - cbn in Hpush. injection Hpush as <-. split; [done|].
    apply filled_suffix_slots. split; [by intros [? [=]] | by eauto].
  - destruct (context_wf_inv _ Hwf) as (x & y & z & ->).
    split; [done|]. by apply (filled_suffix_slots None None None).
  - split; [done|]. by apply (filled_suffix_slots None None None).
Qed.

(** C5. In every context built from a fresh context by pushes of words and
    resets, a filled slot is followed by filled slots only: the unfilled
    slots are a prefix of the window. *)
Theorem reachable_filled_suffix (context : MarkovContext) (i j : nat) :
  reachable context ->
  (i < j < MARKOV_CONTEXT_SIZE)%nat ->
  is_Some (word_at context i) -> is_Some (word_at context j).
Proof. intros Hr. by apply reachable_shape. Qed.


(** ** Contexts: copy *)

Lemma copy_filled_suffix (context : MarkovContext) :
  filled_suffix context ->
  exists context',
    markov_context_copy (Some context) = Ok (Some context') /\
    context_wf context' /\
    forall i : nat, (i < MARKOV_CONTEXT_SIZE)%nat ->
                    word_at context' i = word_at context i.
Proof.
  intros Hfs.
  assert (H01 := Hfs 0%nat 1%nat). assert (H12 := Hfs 1%nat 2%nat).
  unfold markov_context_copy, MARKOV_CONTEXT_SIZE in *. cbn [for_loop].
  destruct (word_at context 0) as [x|] eqn:E0,
           (word_at context 1) as [y|] eqn:E1,
           (word_at context 2) as [z|] eqn:E2;
    try (exfalso; first [by (destruct H01 as [? [=]]; [lia|eauto])
                        |by (destruct H12 as [? [=]]; [lia|eauto])]);
    cbn; (eexists; split; [reflexivity|]); (split; [done|]);
    intros [|[|[|i]]] Hi; try lia; cbn; congruence.
Qed.

Lemma copy_matches (context : MarkovContext) :
  filled_suffix context ->
  exists context',
    markov_context_copy (Some context) = Ok (Some context') /\
    markov_context_check_match context' context = true.
Proof.
  intros (context' & Hcopy & _ & Hslots)%copy_filled_suffix.
  exists context'. split; [done|]. apply check_match_slots.
  intros i Hi. by apply slot_equal_eq, Hslots.
Qed.

(** ** Contexts: fingerprint *)

Lemma hash_step_mul (hash : Z) : hash_step hash = (hash * 33) mod SIZE_MODULUS.
Proof.
  unfold hash_step, to_size_t. rewrite Z.shiftl_mul_pow2 by lia.
  rewrite Zplus_mod_idemp_l. f_equal. lia.
Qed.

Lemma hash_word_djb2 (word : string) (hash : Z) :
  hash_word char_signed hash word
  = djb2_word (char_to_int char_signed) hash word.
Proof.
  unfold djb2_word. revert hash.
  induction word as [|ch word IH]; intros hash; [done|].
  cbn [hash_word list_ascii_of_string foldl]. rewrite IH. f_equal.
  rewrite hash_step_mul. unfold to_size_t.
  by rewrite <- Zplus_mod.
Qed.

Lemma get_hash_djb2 (context : MarkovContext) :
  context_wf context ->
  markov_context_get_hash char_signed context
  = djb2_with (char_to_int char_signed) context.
Proof.
  intros (x & y & z & ->)%context_wf_inv.
  unfold markov_context_get_hash, djb2_with. cbn.
  destruct x, y, z; cbn; by rewrite ?hash_word_djb2, ?hash_step_mul.
Qed.

Lemma djb2_word_ext (f g : ascii -> Z) (word : string) (hash : Z) :
  Forall (fun ch => f ch = g ch) (list_ascii_of_string word) ->
  djb2_word f hash word = djb2_word g hash word.
Proof.
  unfold djb2_word. revert hash.
  induction (list_ascii_of_string word) as [|ch l IH]; intros hash Hall;
    [done|].
  apply Forall_cons in Hall as [Hch Hall]. cbn. rewrite Hch. by apply IH.
Qed.

Lemma djb2_with_ext (f g : ascii -> Z) (context : MarkovContext) :
  Forall (fun slot =>
            forall word, slot = Some word ->
                         Forall (fun ch => f ch = g ch)
                                (list_ascii_of_string word))
         (previous_words context) ->
  djb2_with f context = djb2_with g context.
Proof.
  unfold djb2_with. generalize 5381.
  induction (previous_words context) as [|slot slots IH]; intros hash Hall;
    [done|].
  apply Forall_cons in Hall as [Hslot Hall]. cbn.
  assert (djb2_slot f hash slot = djb2_slot g hash slot) as ->.
  { destruct slot as [word|]; [|done]. cbn. by apply djb2_word_ext, Hslot. }
  by apply IH.
Qed.

Lemma char_to_int_byte (ch : ascii) :
  char_signed = false \/ uchar ch < 128 ->
  char_to_int char_signed ch = uchar ch.
Proof.
  unfold char_to_int. intros [->|Hlt]; [done|].
  destruct (Z.leb_spec 128 (uchar ch)); [lia|]. by rewrite andb_false_r.
Qed.

Lemma get_hash_reference (context : MarkovContext) :
  context_wf context ->
  char_signed = false \/ seven_bit context = true ->
  markov_context_get_hash char_signed context = djb2_reference context.
Proof.
  intros Hwf Hbytes. rewrite get_hash_djb2 by done. unfold djb2_reference.
  apply djb2_with_ext. apply Forall_forall. intros slot Hslot word ->.
  apply Forall_forall. intros ch Hch. apply char_to_int_byte.
  destruct Hbytes as [?|Hseven]; [by left|]. right.
  unfold seven_bit in Hseven. rewrite forallb_forall in Hseven.
  apply list_elem_of_In, Hseven in Hslot. cbn in Hslot.
  rewrite forallb_forall in Hslot.
  apply list_elem_of_In, Hslot in Hch. lia.
Qed.

Lemma get_hash_slots (a b : MarkovContext) :
  (forall i : nat, (i < MARKOV_CONTEXT_SIZE)%nat -> word_at a i = word_at b i) ->
  markov_context_get_hash char_signed a = markov_context_get_hash char_signed b.
Proof.
  intros H. unfold markov_context_get_hash, MARKOV_CONTEXT_SIZE in *. cbn.
  by rewrite (H 0%nat), (H 1%nat), (H 2%nat) by lia.
Qed.

Lemma check_match_get_hash (a b : MarkovContext) :
  markov_context_check_match a b = true ->
  markov_context_get_hash char_signed a = markov_context_get_hash char_signed b.
Proof.
  rewrite check_match_slots. intros H. apply get_hash_slots.
  intros i Hi. by apply slot_equal_eq, H.
Qed.

(** C6, as the code has it. Two contexts that match have the same hash. The
    hash of a context is the djb2 scheme (seed 5381, [hash * 33 + c] for every
    character of a filled slot, one step [hash * 33] for an unfilled slot, in
    the arithmetic of [size_t]) in which [c] is the character as the code reads
    it, [int c = *word]: the byte, less 256 for a byte from 128 on where plain
    [char] is signed. It is the djb2 reference on bytes where plain [char] is
    unsigned, and for every context whose bytes are all below 128. And the hash
    depends on the order of the words: the windows [a, b, c] and [c, b, a] have
    different hashes. *)
Theorem fingerprint_consistent :
  (forall a b : MarkovContext,
      markov_context_check_match a b = true ->
      markov_context_get_hash char_signed a = markov_context_get_hash char_signed b) /\
  (forall context : MarkovContext,
      context_wf context ->
      markov_context_get_hash char_signed context
      = djb2_with (char_to_int char_signed) context) /\
  (forall context : MarkovContext,
      context_wf context ->
      char_signed = false \/ seven_bit context = true ->
      markov_context_get_hash char_signed context = djb2_reference context) /\
  (exists a b c : string,
      markov_context_get_hash char_signed {| previous_words := [Some a; Some b; Some c] |}
      <> markov_context_get_hash char_signed {| previous_words := [Some c; Some b; Some a] |}).
Proof.
  split; [exact check_match_get_hash|].
  split; [exact get_hash_djb2|].
  split; [exact get_hash_reference|].
  exists "a", "b", "c". destruct char_signed; vm_compute; discriminate.
Qed.


(** ** Transition tables: accumulation *)

Lemma to_size_t_small (z : Z) : 0 <= z < SIZE_MODULUS -> to_size_t z = z.
Proof. intros H. unfold to_size_t. by apply Z.mod_small. Qed.

Lemma table_count_None (value : list MarkovValue) (word : string) :
  table_count value word = None <-> word ∉ (value_word <$> value).
Proof.
  induction value as [|cell next IH]; cbn.
  - split; [intros _; apply not_elem_of_nil | done].
  - rewrite not_elem_of_cons. case_decide as Hw.
    + split; [done | intros [Hne _]; by destruct Hne].
    + rewrite IH. split; [by intros ? | by intros [_ ?]].
Qed.

Lemma table_count_elem (value : list MarkovValue) (cell : MarkovValue) :
  NoDup (value_word <$> value) -> cell ∈ value ->
  table_count value (value_word cell) = Some (value_count cell).
Proof.
  induction value as [|cell' next IH]; cbn; intros Hnd Hin.
  - by apply elem_of_nil in Hin.
  - apply NoDup_cons in Hnd as [Hnot Hnd].
    apply elem_of_cons in Hin as [->|Hin]; [by rewrite decide_True|].
    rewrite decide_False; [by apply IH|].
    intros Heq. apply Hnot. rewrite Heq. by apply list_elem_of_fmap_2.
Qed.

Lemma value_increment_None (value : list MarkovValue) (word : string) :
  value_increment value word = None <-> table_count value word = None.
Proof.
  induction value as [|cell next IH]; cbn; [done|].
  destruct (Z.eqb_spec (strcmp (value_word cell) word) 0) as [Heq|Hne].
  - apply strcmp_eq in Heq. by rewrite decide_True.
  - rewrite decide_False by (by rewrite <- strcmp_eq).
    rewrite <- IH. by destruct (value_increment next word).
Qed.

Lemma sum_counts_cons (cell : MarkovValue) (next : list MarkovValue) :
  sum_counts (cell :: next) = value_count cell + sum_counts next.
Proof. reflexivity. Qed.

Lemma value_increment_Some (value value' : list MarkovValue) (word : string) :
  value_increment value word = Some value' ->
  value_word <$> value' = value_word <$> value /\
  exists count,
    table_count value word = Some count /\
    sum_counts value' = sum_counts value - count + to_size_t (count + 1) /\
    forall word',
      table_count value' word' =
      if decide (word' = word) then Some (to_size_t (count + 1))
      else table_count value word'.
Proof.
  revert value'. induction value as [|cell next IH]; cbn; intros value'; [done|].
  destruct (Z.eqb_spec (strcmp (value_word cell) word) 0) as [Heq|Hne].
  - apply strcmp_eq in Heq. intros [= <-]. split; [done|].
    exists (value_count cell). rewrite decide_True by done.
    split; [done|]. split; [rewrite !sum_counts_cons; cbn [value_count]; lia|].
    intros word'. cbn. rewrite Heq.
    destruct (decide (word = word')) as [->|Hne].
    + by rewrite decide_True.
    + by rewrite decide_False by congruence.
  - rewrite strcmp_eq in Hne.
    destruct (value_increment next word) as [next'|]; [|done].
    intros [= <-]. destruct (IH _ eq_refl) as (Hkeys & count & Hc & Hsum & Hother).
    split; [cbn; by rewrite Hkeys|].
    exists count. rewrite decide_False by done.
    split; [done|]. split; [rewrite !sum_counts_cons; cbn [value_count]; lia|].
    intros word'. cbn. rewrite Hother.
    destruct (decide (value_word cell = word')) as [<-|?]; [|done].
    by rewrite decide_False.
Qed.

Lemma count_occ_le_length (words : list string) (word : string) :
  (count_occ string_dec words word <= length words)%nat.
Proof.
  induction words as [|w words IH]; cbn; [lia|].
  destruct (string_dec w word); lia.
Qed.

Lemma count_occ_snoc (words : list string) (w word : string) :
  count_occ string_dec (words ++ [w]) word =
  (count_occ string_dec words word + (if decide (word = w) then 1 else 0))%nat.
Proof.
  rewrite count_occ_app. cbn.
  destruct (string_dec w word) as [->|Hne].
  - by rewrite decide_True.
  - by rewrite decide_False by congruence.
Qed.

Lemma elem_of_snoc (words : list string) (w word : string) :
  word ∈ words ++ [w] <-> word ∈ words \/ word = w.
Proof. by rewrite elem_of_app, list_elem_of_singleton. Qed.

Lemma table_holds_add (words : list string) (value : list MarkovValue) (w : string) :
  Z.of_nat (length (words ++ [w])) < SIZE_MODULUS ->
  table_holds words value ->
  table_holds (words ++ [w]) (markov_value_add_word value w).
Proof.
  rewrite length_app. cbn. intros Hlen (Hnd & Hsum & Hcount).
  unfold markov_value_add_word.
  destruct (value_increment value w) as [value'|] eqn:Hinc.
  - apply value_increment_Some in Hinc
      as (Hkeys & count & Hc & Hsum' & Hother).
    assert (Hin : w ∈ words).
    { specialize (Hcount w). rewrite Hc in Hcount. by case_decide. }
    assert (count = Z.of_nat (count_occ string_dec words w)) as ->.
    { specialize (Hcount w). rewrite Hc, decide_True in Hcount by done.
      congruence. }
    pose proof (count_occ_le_length words w) as Hle.
    rewrite to_size_t_small in Hsum', Hother by lia.
    split; [by rewrite Hkeys|]. split; [rewrite length_app; cbn; lia|].
    intros word. rewrite Hother, count_occ_snoc.
    destruct (decide (word = w)) as [->|Hne].
    + rewrite decide_True by (apply elem_of_snoc; auto). f_equal. lia.
    + rewrite Hcount. destruct (decide (word ∈ words)) as [Hw|Hw].
      * rewrite decide_True by (apply elem_of_snoc; auto). f_equal. lia.
      * rewrite decide_False; [done|]. rewrite elem_of_snoc. tauto.
  - apply value_increment_None in Hinc.
    assert (Hnotin : w ∉ words).
    { specialize (Hcount w). rewrite Hinc in Hcount. by case_decide. }
    split; [|split].
    + cbn. apply NoDup_cons. split; [by apply table_count_None | done].
    + rewrite sum_counts_cons, length_app. cbn. lia.
    + intros word. cbn. rewrite count_occ_snoc.
      destruct (decide (w = word)) as [<-|Hne].
      * rewrite decide_True by (apply elem_of_snoc; auto).
        rewrite decide_True by done.
        assert (count_occ string_dec words w = 0%nat) as ->
          by (apply count_occ_not_In; by rewrite <- list_elem_of_In).
        done.
      * rewrite Hcount, (decide_False (P := word = w)) by congruence.
        destruct (decide (word ∈ words)) as [Hw|Hw].
        -- rewrite decide_True by (apply elem_of_snoc; auto). f_equal. lia.
        -- rewrite decide_False; [done|]. rewrite elem_of_snoc.
           intros [?|?]; [done | congruence].
Qed.

Lemma table_of_holds (words : list string) :
  Z.of_nat (length words) < SIZE_MODULUS -> table_holds words (table_of words).
Proof.
  induction words as [|w words IH] using rev_ind; intros Hlen.
  - split; [constructor|]. split; [done|]. intros word.
    by rewrite decide_False by apply not_elem_of_nil.
  - unfold table_of. rewrite foldl_app. cbn.
    apply table_holds_add; [done|]. apply IH.
    rewrite length_app in Hlen. lia.
Qed.

Lemma value_total_count_foldl (value : list MarkovValue) (acc : Z) :
  foldl (fun total_count cell => to_size_t (total_count + value_count cell))
        acc value
  = if value is [] then acc else to_size_t (acc + sum_counts value).
Proof.
  revert acc. induction value as [|cell next IH]; intros acc; [done|].
  cbn [foldl]. rewrite IH. destruct next as [|cell' next].
  - f_equal. rewrite sum_counts_cons. unfold sum_counts. cbn. lia.
  - rewrite (sum_counts_cons cell). unfold to_size_t.
    rewrite Zplus_mod_idemp_l. f_equal. lia.
Qed.

Lemma value_total_count_sum (value : list MarkovValue) :
  0 <= sum_counts value < SIZE_MODULUS ->
  value_total_count value = sum_counts value.
Proof.
  intros H. unfold value_total_count. rewrite value_total_count_foldl.
  destruct value; [done|]. by rewrite Z.add_0_l, to_size_t_small.
Qed.

(** The same word [K] times: count [K], total [K]. *)
Lemma table_of_same_word (word : string) (K : nat) :
  (0 < K)%nat -> Z.of_nat K < SIZE_MODULUS ->
  table_count (table_of (replicate K word)) word = Some (Z.of_nat K) /\
  sum_counts (table_of (replicate K word)) = Z.of_nat K.
Proof.
  intros HK Hlen.
  destruct (table_of_holds (replicate K word)) as (_ & Hsum & Hcount).
  { by rewrite length_replicate. }
  rewrite length_replicate in Hsum. split; [|done].
  rewrite Hcount, decide_True by (apply elem_of_replicate; split; [done | lia]).
  do 2 f_equal. clear. induction K as [|K IH]; [done|].
  cbn. destruct (string_dec word word); [by rewrite IH | done].
Qed.

(** Two distinct words, once each: count 1 each, total 2. *)
Lemma table_of_two_words (a b : string) :
  a <> b ->
  table_of [a; b]
  = [ {| value_word := b; value_count := 1 |};
      {| value_word := a; value_count := 1 |} ] /\
  value_total_count (table_of [a; b]) = 2.
Proof.
  intros Hne. unfold table_of. cbn [foldl].
  unfold markov_value_add_word at 2. cbn [value_increment].
  unfold markov_value_add_word, markov_value_new. cbn [value_increment value_word].
  destruct (Z.eqb_spec (strcmp a b) 0) as [Heq%strcmp_eq|_]; [done|].
  split; reflexivity.
Qed.

(** C8. The table built by adding the words of a sequence, starting from
    no table, holds every word of the sequence once as a key, with the number
    of its occurrences as count; every count is at least 1, and the total
    (the sum of the counts, which is also what the sampler computes) is the
    length of the sequence. Counts are [size_t]: the sequence is shorter than
    2^64. *)
Theorem table_accumulation (words : list string) :
  Z.of_nat (length words) < SIZE_MODULUS ->
  NoDup (value_word <$> table_of words) /\
  (forall word,
      table_count (table_of words) word =
      if decide (word ∈ words)
      then Some (Z.of_nat (count_occ string_dec words word))
      else None) /\
  (forall cell, cell ∈ table_of words -> 1 <= value_count cell) /\
  sum_counts (table_of words) = Z.of_nat (length words) /\
  value_total_count (table_of words) = Z.of_nat (length words).
Proof.
  intros Hlen. destruct (table_of_holds words Hlen) as (Hnd & Hsum & Hcount).
  split; [done|]. split; [done|]. split; [|split; [done|]].
  - intros cell Hin. pose proof (table_count_elem _ _ Hnd Hin) as Hc.
    rewrite Hcount in Hc. case_decide as Hw; [|done].
    injection Hc as <-.
    apply list_elem_of_In, (count_occ_In string_dec) in Hw. lia.
  - rewrite value_total_count_sum; [done|]. lia.
Qed.


(** ** Transition tables: weighted sampling *)

Lemma sum_counts_nil : sum_counts [] = 0.
Proof. reflexivity. Qed.

Lemma cumulative_0 (value : list MarkovValue) : cumulative value 0 = 0.
Proof. reflexivity. Qed.

Lemma cumulative_S (cell : MarkovValue) (next : list MarkovValue) (i : nat) :
  cumulative (cell :: next) (S i) = value_count cell + cumulative next i.
Proof. reflexivity. Qed.

Lemma sum_counts_nonneg (value : list MarkovValue) :
  Forall (fun cell => 1 <= value_count cell) value -> 0 <= sum_counts value.
Proof.
  induction 1 as [|cell next Hc _ IH]; [done|]. rewrite sum_counts_cons. lia.
Qed.

Lemma sum_counts_pos (value : list MarkovValue) :
  value <> [] -> Forall (fun cell => 1 <= value_count cell) value ->
  0 < sum_counts value.
Proof.
  intros Hne Hall. destruct Hall as [|cell next Hc Hall]; [done|].
  apply sum_counts_nonneg in Hall. rewrite sum_counts_cons. lia.
Qed.

Lemma cumulative_nonneg (value : list MarkovValue) (i : nat) :
  Forall (fun cell => 1 <= value_count cell) value -> 0 <= cumulative value i.
Proof. intros Hall. by apply sum_counts_nonneg, Forall_take. Qed.

Lemma value_walk_range (value : list MarkovValue) (r : Z) :
  Forall (fun cell => 1 <= value_count cell) value ->
  sum_counts value < SIZE_MODULUS ->
  0 <= r < sum_counts value ->
  exists (i : nat) (cell : MarkovValue),
    value !! i = Some cell /\
    cumulative value i <= r < cumulative value i + value_count cell /\
    value_walk value r = Some (value_word cell) /\
    forall (j : nat) (cell' : MarkovValue),
      value !! j = Some cell' ->
      cumulative value j <= r < cumulative value j + value_count cell' ->
      j = i.
Proof.
  intros Hall. revert r.
  induction Hall as [|cell next Hc Hall IH]; intros r Hsum Hr.
  { rewrite sum_counts_nil in Hr. lia. }
  rewrite sum_counts_cons in Hsum, Hr.
  pose proof (sum_counts_nonneg _ Hall) as Hnext.
  cbn [value_walk].
  destruct (Z.ltb_spec r (value_count cell)) as [Hlt|Hge].
  - exists 0%nat, cell. rewrite cumulative_0.
    split; [done|]. split; [lia|]. split; [done|].
    intros [|j] cell' Hj Hrange; [done|]. exfalso.
    pose proof (cumulative_nonneg next j Hall).
    rewrite cumulative_S in Hrange. lia.
  - rewrite to_size_t_small by lia.
    destruct (IH (r - value_count cell)) as (i & found & Hi & Hrange & Hwalk & Huniq);
      [lia | lia |].
    exists (S i), found. rewrite cumulative_S.
    split; [done|]. split; [lia|]. split; [done|].
    intros [|j] cell' Hj Hrange'.
    + injection Hj as <-. rewrite cumulative_0 in Hrange'. lia.
    + f_equal. rewrite cumulative_S in Hrange'.
      apply (Huniq j cell'); [done | lia].
Qed.

(** C7. In a table that is not empty, for every draw [r] from 0 to the total
    count [T], [T] excluded, exactly one entry has [r] in the range of its
    cumulative counts, in the order of the list; the walk of the sampler ends
    on that entry, and [markov_value_get_random] returns its word whenever
    [rand() % T] is [r] (so when [rand()] returns [r]). The word is a key of
    the table, and the result is a function of [r] and of the list. The
    counts of a table are at least 1 and their sum is a [size_t]. *)
Theorem sample_weighted (value : list MarkovValue) (r : Z) :
  value <> [] ->
  Forall (fun cell => 1 <= value_count cell) value ->
  sum_counts value < SIZE_MODULUS ->
  0 <= r < sum_counts value ->
  value_total_count value = sum_counts value /\
  exists (i : nat) (cell : MarkovValue),
    value !! i = Some cell /\
    cumulative value i <= r < cumulative value i + value_count cell /\
    (forall (j : nat) (cell' : MarkovValue),
        value !! j = Some cell' ->
        cumulative value j <= r < cumulative value j + value_count cell' ->
        j = i) /\
    value_walk value r = Some (value_word cell) /\
    (forall rnd : Z,
        to_size_t rnd mod value_total_count value = r ->
        markov_value_get_random value rnd = Ok (value_word cell)) /\
    markov_value_get_random value r = Ok (value_word cell) /\
    value_word cell ∈ (value_word <$> value).
Proof.
  intros Hne Hall Hsum Hr.
  pose proof (sum_counts_pos _ Hne Hall) as Hpos.
  assert (Htotal : value_total_count value = sum_counts value)
    by (apply value_total_count_sum; lia).
  split; [done|].
  destruct (value_walk_range value r Hall Hsum Hr)
    as (i & cell & Hi & Hrange & Hwalk & Huniq).
  exists i, cell.
  assert (Hrandom : forall rnd : Z,
             to_size_t rnd mod value_total_count value = r ->
             markov_value_get_random value rnd = Ok (value_word cell)).
  { intros rnd Hrnd. unfold markov_value_get_random.
    rewrite Hrnd, Hwalk. rewrite Htotal.
    destruct (Z.eqb_spec (sum_counts value) 0); [lia | done]. }
  repeat split; try done; try lia.
  - apply Hrandom. rewrite Htotal, to_size_t_small by lia.
    apply Z.mod_small. lia.
  - apply list_elem_of_fmap_2. by eapply list_elem_of_lookup_2.
Qed.


(** ** Model: adding and predicting *)

Arguments markov_context_check_match : simpl never.
Arguments markov_context_get_hash : simpl never.
Arguments markov_context_copy : simpl never.
Arguments markov_value_get_random : simpl never.

Lemma get_random_single_cell (cell : MarkovValue) (rnd : Z) :
  0 < value_count cell < SIZE_MODULUS ->
  markov_value_get_random [cell] rnd = Ok (value_word cell).
Proof.
  intros Hc. unfold markov_value_get_random, value_total_count. cbn [foldl].
  rewrite Z.add_0_l, to_size_t_small by lia.
  destruct (Z.eqb_spec (value_count cell) 0) as [?|_]; [lia|].
  cbn [value_walk].
  pose proof (Z.mod_pos_bound (to_size_t rnd) (value_count cell)) as Hr.
  destruct (Z.ltb_spec (to_size_t rnd mod value_count cell) (value_count cell));
    [done | lia].
Qed.

Lemma node_update_no_match (node : list MarkovNode) (context : MarkovContext)
    (word : string) :
  (forall cell, cell ∈ node ->
                markov_context_check_match (node_context cell) context = false) ->
  node_update node context word = None.
Proof.
  induction node as [|cell next IH]; intros Hno; [done|]. cbn.
  rewrite (Hno cell) by constructor. rewrite IH; [done|].
  intros cell' Hin. apply Hno. by constructor.
Qed.

Lemma bucket_index_in_range (model : MarkovModel) (context : MarkovContext) :
  model_wf model -> 0 < model_size model ->
  exists (index : nat) (bucket : list MarkovNode),
    bucket_index char_signed model context = Ok index /\
    model_nodes model !! index = Some bucket.
Proof.
  intros [Hsize Hlen] Hpos. unfold bucket_index.
  destruct (Z.eqb_spec (model_size model) 0) as [?|_]; [lia|].
  pose proof (Z.mod_pos_bound (markov_context_get_hash char_signed context)
                              (model_size model) Hpos) as Hmod.
  destruct (lookup_lt_is_Some_2 (model_nodes model)
              (Z.to_nat (markov_context_get_hash char_signed context
                         mod model_size model))) as [bucket Hbucket].
  { rewrite Hlen. lia. }
  eauto.
Qed.

(** C3, as the code has it. In a model with its buckets in place, after
    [markov_model_add_data] of a word under a context that no entry matches
    and whose filled slots are the last ones of the window,
    [markov_model_get_next] on that context returns the word, whatever
    [rand()] returns. *)
Theorem model_round_trip (model : MarkovModel) (context : MarkovContext)
    (word : string) (calls : nat) :
  model_wf model -> 0 < model_size model ->
  filled_suffix context ->
  no_entry model context ->
  exists model',
    markov_model_add_data char_signed (Some model) context word
      = Ok (Some model') /\
    markov_model_get_next char_signed rand (Some model') context calls
      = Ok (Some word, S calls).
Proof.
  intros Hwf Hpos Hfs Hno.
  destruct (bucket_index_in_range model context Hwf Hpos)
    as (index & bucket & Hindex & Hbucket).
  destruct (copy_matches context Hfs) as (context' & Hcopy & Hmatch).
  eexists. split.
  - unfold markov_model_add_data. rewrite Hindex. cbn. rewrite Hbucket.
    unfold markov_node_add_node. rewrite node_update_no_match.
    + rewrite Hcopy. cbn. reflexivity.
    + intros cell Hin. apply (Hno bucket); [|done].
      by eapply list_elem_of_lookup_2.
  - unfold markov_model_get_next, bucket_index in *. cbn [model_size model_nodes].
    destruct (model_size model =? 0); [done|]. injection Hindex as ->.
    cbn. rewrite list_lookup_insert_eq by (by eapply lookup_lt_Some).
    cbn [node_lookup node_context node_value]. rewrite Hmatch.
    unfold markov_value_add_word. cbn [value_increment].
    rewrite get_random_single_cell; [done|]. by cbn.
Qed.

(** ** Trainer: skipped lines *)

Lemma fold_result_app {A St : Type} (body : St -> A -> result St)
    (l1 l2 : list A) (s : St) :
  fold_result body (l1 ++ l2) s = (s' ← fold_result body l1 s; fold_result body l2 s').
Proof.
  revert s. induction l1 as [|x l1 IH]; intros s; [done|]. cbn.
  destruct (body s x) as [s'|f]; [apply IH | done].
Qed.

(** A buffer [line] whose first token begins with ['-'] leaves the model
    and the running context as they are: no word is added, and the context is
    neither pushed nor reset. The buffers around it are therefore trained as
    if it were not there. *)
Lemma load_line_skipped (line word : string) (rest : list string) :
  strtok_all is_delimiter line = word :: rest ->
  first_char word = "-"%char ->
  (forall state : option MarkovModel * MarkovContext,
      load_line char_signed state line = Ok state) /\
  (forall (before after : list string)
          (state : option MarkovModel * MarkovContext),
      load_lines char_signed (before ++ line :: after) state
      = load_lines char_signed (before ++ after) state).
Proof.
  intros Htokens Hfirst.
  assert (Hline : forall state, load_line char_signed state line = Ok state).
  { intros [model context]. unfold load_line. by rewrite Htokens, Hfirst. }
  split; [done|]. intros before after state. unfold load_lines.
  rewrite !fold_result_app. destruct (fold_result _ before state) as [s'|f]; [|done].
  cbn. by rewrite Hline.
Qed.

(** ** Generator: absence *)

Lemma generate_absent_faults (iterations : nat) (model : option MarkovModel)
    (context : MarkovContext) (quote : option string) (calls calls' : nat) :
  markov_model_get_next char_signed rand model context calls = Ok (None, calls') ->
  generate_quote_loop char_signed rand (S iterations) model context quote calls
  = Fault NullDeref.
Proof. intros Hnext. cbn [generate_quote_loop]. by rewrite Hnext. Qed.

(** C1, on the code. When [markov_model_get_next] returns NULL, the loop of
    [markov_model_generate_quote] hands NULL to [markov_context_push_word],
    whose [strdup(word)] dereferences it, before the test [if (!word)] is
    reached: the call does not return the quote. So it is for the model of
    an empty corpus. *)
Theorem generate_absent_null_deref :
  (forall (iterations : nat) (model : option MarkovModel)
          (context : MarkovContext) (quote : option string) (calls calls' : nat),
      markov_model_get_next char_signed rand model context calls
        = Ok (None, calls') ->
      generate_quote_loop char_signed rand (S iterations) model context quote calls
        = Fault NullDeref) /\
  markov_model_load_file char_signed (Some "")
    = Ok (Some (markov_model_new HASH_MAP_SIZE)) /\
  (forall calls : nat,
      markov_model_generate_quote char_signed rand
        (Some (markov_model_new HASH_MAP_SIZE)) calls
      = Fault NullDeref).
Proof.
  split; [exact generate_absent_faults|]. split.
  - destruct char_signed; vm_compute; reflexivity.
  - intros calls. unfold markov_model_generate_quote.
    change (Z.to_nat (MAX_QUOTE_LENGTH + 1 - 0)) with 51%nat.
    apply (generate_absent_faults _ _ _ _ _ calls).
    destruct char_signed; vm_compute; reflexivity.
Qed.

(** ** Generator: the words of a quote *)

Arguments add_word_to_quote : simpl never.
Arguments check_end_condition : simpl never.

Lemma append_nil_l (a : string) : "" +:+ a = a.
Proof. reflexivity. Qed.

Lemma append_cons (ch : ascii) (a b : string) :
  String ch a +:+ b = String ch (a +:+ b).
Proof. reflexivity. Qed.

Lemma append_assoc (a b c : string) : (a +:+ b) +:+ c = a +:+ (b +:+ c).
Proof.
  induction a as [|ch a IH]; [done|]. by rewrite !append_cons, IH.
Qed.

Lemma append_empty_r (a : string) : a +:+ "" = a.
Proof. induction a as [|ch a IH]; [done|]. by rewrite append_cons, IH. Qed.

Lemma strtok_from_no_delimiter (delim : ascii -> bool) (word cur : string) :
  (forall ch, strchr word ch = true -> delim ch = false) ->
  cur +:+ word <> "" ->
  strtok_from delim cur word = [cur +:+ word].
Proof.
  revert cur. induction word as [|ch word IH]; intros cur Hno Hne;
    cbn [strtok_from].
  - rewrite append_empty_r in *. by rewrite decide_False.
  - rewrite (Hno ch) by (cbn; by rewrite Ascii.eqb_refl).
    rewrite IH.
    + by rewrite append_assoc.
    + intros ch' Hch'. apply Hno. cbn. rewrite Hch'. by destruct (Ascii.eqb ch ch').
    + by rewrite append_assoc.
Qed.

Lemma strtok_from_delimiter (delim : ascii -> bool) (s1 s2 cur : string)
    (ch : ascii) :
  delim ch = true ->
  strtok_from delim cur (s1 +:+ String ch s2)
  = strtok_from delim cur s1 ++ strtok_from delim "" s2.
Proof.
  intros Hch. revert cur. induction s1 as [|x s1 IH]; intros cur.
  - rewrite append_nil_l. cbn [strtok_from]. rewrite Hch.
    by destruct (decide (cur = "")).
  - rewrite append_cons. cbn [strtok_from].
    destruct (delim x); [|apply IH].
    destruct (decide (cur = "")); cbn; by rewrite IH.
Qed.

Lemma quote_words_add (quote word : string) :
  plain_word word = true ->
  exists quote',
    add_word_to_quote (Some quote) (Some word) = Some quote' /\
    quote_words quote' = quote_words quote ++ [word].
Proof.
  unfold plain_word. rewrite !andb_true_iff, !negb_true_iff.
  intros [[Hne Hspace] _]. apply bool_decide_eq_false in Hne.
  assert (Hword : quote_words word = [word]).
  { apply (strtok_from_no_delimiter _ word ""); [|done].
    intros ch Hch. destruct (Ascii.eqb_spec ch " ") as [->|]; congruence. }
  unfold add_word_to_quote. eexists. split; [reflexivity|].
  destruct (decide (quote = "")) as [->|Hq]; [done|].
  rewrite append_assoc, append_cons, append_nil_l.
  unfold quote_words, strtok_all in *.
  by rewrite strtok_from_delimiter, Hword.
Qed.

Lemma elem_of_concat {A : Type} (x : A) (ls : list (list A)) :
  x ∈ concat ls <-> exists l : list A, x ∈ l /\ l ∈ ls.
Proof.
  induction ls as [|l0 ls IH]; cbn.
  - split; [by intros ?%elem_of_nil | by intros (l & _ & ?%elem_of_nil)].
  - rewrite elem_of_app, IH. split.
    + intros [Hx|(l & Hx & Hl)]; [exists l0 | exists l];
        (split; [done|]); by constructor.
    + intros (l & Hx & Hl). apply elem_of_cons in Hl as [->|Hl]; eauto.
Qed.

Lemma value_walk_elem (value : list MarkovValue) (r : Z) (word : string) :
  value_walk value r = Some word -> word ∈ (value_word <$> value).
Proof.
  revert r. induction value as [|cell next IH]; intros r; cbn; [done|].
  destruct (r <? value_count cell).
  - intros [= <-]. constructor.
  - intros Hw%IH. by constructor.
Qed.

Lemma get_random_elem (value : list MarkovValue) (rnd : Z) (word : string) :
  markov_value_get_random value rnd = Ok word ->
  word ∈ (value_word <$> value).
Proof.
  unfold markov_value_get_random.
  destruct (value_total_count value =? 0); [done|].
  destruct (value_walk value _) as [w|] eqn:Hwalk.
  - intros [= <-]. by eapply value_walk_elem.
  - destruct value as [|cell next]; [done|]. intros [= <-]. constructor.
Qed.

Lemma node_lookup_elem (node : list MarkovNode) (context : MarkovContext)
    (calls calls' : nat) (word : string) :
  node_lookup rand node context calls = Ok (Some word, calls') ->
  word ∈ (value_word <$> concat (node_value <$> node)).
Proof.
  induction node as [|cell next IH]; cbn; [done|].
  rewrite fmap_app, elem_of_app.
  destruct (markov_context_check_match _ _); [|by auto].
  destruct (markov_value_get_random _ _) as [w|] eqn:Hw; [|done].
  cbn. intros [= <- _]. left. by eapply get_random_elem.
Qed.

Lemma get_next_elem (model : MarkovModel) (context : MarkovContext)
    (calls calls' : nat) (word : string) :
  markov_model_get_next char_signed rand (Some model) context calls
    = Ok (Some word, calls') ->
  word ∈ model_words model.
Proof.
  unfold markov_model_get_next, model_words.
  destruct (bucket_index _ _ _) as [index|]; [cbn|done].
  destruct (model_nodes model !! index) as [node|] eqn:Hnode; [|done].
  intros Hw%node_lookup_elem.
  apply list_elem_of_fmap in Hw as (cell & -> & Hcell).
  apply list_elem_of_fmap_2.
  apply elem_of_concat in Hcell as (value & Hcell & Hvalue).
  apply elem_of_concat. exists value. split; [done|].
  apply list_elem_of_fmap in Hvalue as (n & -> & Hn).
  apply list_elem_of_fmap_2, elem_of_concat.
  exists node. split; [done|]. by eapply list_elem_of_lookup_2.
Qed.

Lemma generate_quote_loop_words (model : MarkovModel) (iterations : nat)
    (context : MarkovContext) (quote quote' : string) (calls : nat) :
  forallb plain_word (model_words model) = true ->
  generate_quote_loop char_signed rand iterations (Some model) context
                      (Some quote) calls = Ok (Some quote') ->
  length (quote_words quote') = (length (quote_words quote) + iterations)%nat.
Proof.
  intros Hplain. rewrite forallb_forall in Hplain.
  revert context quote calls.
  induction iterations as [|iterations IH]; intros context quote calls.
  { cbn. intros [= ->]. lia. }
  cbn [generate_quote_loop].
  destruct (markov_model_get_next _ _ _ _ _) as [[[word|] calls']|] eqn:Hnext;
    cbn; [|done|done].
  pose proof (get_next_elem _ _ _ _ _ Hnext) as Hword.
  apply list_elem_of_In, Hplain in Hword.
  destruct (quote_words_add quote word Hword) as (quote1 & -> & Hwords).
  assert (check_end_condition word = false) as ->.
  { unfold plain_word in Hword. rewrite !andb_true_iff, !negb_true_iff in Hword.
    tauto. }
  intros Hloop%IH. rewrite Hloop, Hwords, length_app. cbn. lia.
Qed.

(** C2, on the code. From a model whose stored words are words without a
    sentence terminator, a quote that [markov_model_generate_quote] returns
    has [MAX_QUOTE_LENGTH + 1] words: the loop condition is
    [counter <= MAX_QUOTE_LENGTH] with [counter] starting at 0. *)
Theorem generated_quote_length (model : MarkovModel) (calls : nat)
    (quote : string) :
  forallb plain_word (model_words model) = true ->
  markov_model_generate_quote char_signed rand (Some model) calls
    = Ok (Some quote) ->
  length (quote_words quote) = Z.to_nat (MAX_QUOTE_LENGTH + 1).
Proof.
  intros Hplain Hquote. unfold markov_model_generate_quote in Hquote.
  by apply generate_quote_loop_words in Hquote.
Qed.

(** ** Contexts in memory *)

Lemma cell_lt (h : Mem.heap) (a : Mem.addr) (b : Mem.block) :
  Mem.cell h a b -> (a < length h)%nat.
Proof. intros H. by eapply lookup_lt_Some. Qed.

Lemma cell_app (h l : Mem.heap) (a : Mem.addr) (b : Mem.block) :
  Mem.cell h a b -> Mem.cell (h ++ l) a b.
Proof. intros H. by apply lookup_app_l_Some. Qed.

Lemma cell_new (h : Mem.heap) (b : Mem.block) :
  Mem.cell (h ++ [Some b]) (length h) b.
Proof. unfold Mem.cell. by rewrite list_lookup_middle. Qed.

Lemma cell_insert_ne (h : Mem.heap) (a c : Mem.addr) (x : option Mem.block)
    (b : Mem.block) :
  a <> c -> Mem.cell h a b -> Mem.cell (<[c := x]> h) a b.
Proof. intros Hne H. unfold Mem.cell. by rewrite list_lookup_insert_ne. Qed.

Lemma cell_insert_eq (h : Mem.heap) (c : Mem.addr) (b : Mem.block) :
  (c < length h)%nat -> Mem.cell (<[c := Some b]> h) c b.
Proof. intros H. unfold Mem.cell. by rewrite list_lookup_insert_eq. Qed.

Lemma bind_ok {A B : Type} (m : Mem.M A) (k : A -> Mem.M B) (h h' : Mem.heap)
    (a : A) :
  m h = Ok (a, h') -> (m ≫= k) h = k a h'.
Proof. intros H. unfold mbind, Mem.M_bind. by rewrite H. Qed.

Lemma load_chars_cell (h : Mem.heap) (a : Mem.addr) (s : string) :
  Mem.cell h a (Mem.Chars s) -> Mem.load_chars a h = Ok (s, h).
Proof. intros H. unfold Mem.load_chars. by rewrite H. Qed.

Lemma load_word_cell (h : Mem.heap) (c : Mem.addr) (slots : list (option Mem.addr))
    (i : nat) (p : option Mem.addr) :
  Mem.cell h c (Mem.Context slots) -> slots !! i = Some p ->
  Mem.load_word c i h = Ok (p, h).
Proof. intros H Hi. unfold Mem.load_word. by rewrite H, Hi. Qed.

Lemma store_word_cell (h : Mem.heap) (c : Mem.addr)
    (slots : list (option Mem.addr)) (i : nat) (p : option Mem.addr) :
  Mem.cell h c (Mem.Context slots) -> (i < length slots)%nat ->
  Mem.store_word c i p h
  = Ok ((), <[c := Some (Mem.Context (<[i := p]> slots))]> h).
Proof. intros H Hi. unfold Mem.store_word. by rewrite H, decide_True. Qed.

Lemma strdup_cell (h : Mem.heap) (a : Mem.addr) (s : string) :
  Mem.cell h a (Mem.Chars s) ->
  Mem.strdup (Some a) h = Ok (length h, h ++ [Some (Mem.Chars s)]).
Proof.
  intros H. unfold Mem.strdup.
  by rewrite (bind_ok _ _ _ _ _ (load_chars_cell _ _ _ H)).
Qed.

Lemma bind_bind {A B C : Type} (m : Mem.M A) (k1 : A -> Mem.M B)
    (k2 : B -> Mem.M C) (h : Mem.heap) :
  ((m ≫= k1) ≫= k2) h = (m ≫= fun x => k1 x ≫= k2) h.
Proof. unfold mbind, Mem.M_bind. by destruct (m h) as [[x h']|]. Qed.

Lemma bind_ret {A B : Type} (a : A) (k : A -> Mem.M B) (h : Mem.heap) :
  (mret a ≫= k) h = k a h.
Proof. reflexivity. Qed.

Lemma mem_push_word_unfilled (h : Mem.heap) (c a : Mem.addr)
    (p1 p2 : option Mem.addr) (s : string) :
  Mem.cell h c (Mem.Context [None; p1; p2]) -> Mem.cell h a (Mem.Chars s) ->
  exists h' : Mem.heap,
    Mem.markov_context_push_word (Some c) (Some a) h = Ok (c, h') /\
    length h' = S (length h) /\
    Mem.cell h' c (Mem.Context [p1; p2; Some (length h)]) /\
    Mem.cell h' (length h) (Mem.Chars s) /\
    Mem.agree_but c h h'.
Proof.
  intros Hc Ha. pose proof (cell_lt _ _ _ Hc) as Hlt.
  exists (<[c := Some (Mem.Context [p1; p2; Some (length h)])]>
            (h ++ [Some (Mem.Chars s)])).
  split; [|split; [|split; [|split]]].
  - unfold Mem.markov_context_push_word.
    rewrite bind_ret, (bind_ok _ _ _ _ _ (strdup_cell _ _ _ Ha)).
    set (h1 := h ++ [Some (Mem.Chars s)]).
    assert (Hlt1 : (c < length h1)%nat) by (unfold h1; rewrite length_app; lia).
    assert (Hc1 : Mem.cell h1 c (Mem.Context [None; p1; p2])) by by apply cell_app.
    rewrite (bind_ok _ _ _ _ _ (load_word_cell _ _ _ 0 None Hc1 eq_refl)).
    rewrite bind_ret.
    change (MARKOV_CONTEXT_SIZE - 1)%nat with 2%nat. cbn [Mem.for_loop].
    rewrite !bind_bind.
    rewrite (bind_ok _ _ _ _ _ (load_word_cell _ _ _ 1 p1 Hc1 eq_refl)).
    rewrite (bind_ok _ _ _ _ _ (store_word_cell _ _ _ 0 p1 Hc1 ltac:(cbn; lia))).
    cbn [list_insert insert].
    set (h2 := <[c := _]> h1).
    assert (Hc2 : Mem.cell h2 c (Mem.Context [p1; p1; p2])) by by apply cell_insert_eq.
    rewrite !bind_bind.
    rewrite (bind_ok _ _ _ _ _ (load_word_cell _ _ _ 2 p2 Hc2 eq_refl)).
    rewrite (bind_ok _ _ _ _ _ (store_word_cell _ _ _ 1 p2 Hc2 ltac:(cbn; lia))).
    cbn [list_insert insert].
    set (h3 := <[c := _]> h2).
    assert (Hc3 : Mem.cell h3 c (Mem.Context [p1; p2; p2])).
    { apply cell_insert_eq. unfold h2. by rewrite length_insert. }
    rewrite bind_ret.
    rewrite (bind_ok _ _ _ _ _
               (store_word_cell _ _ _ 2 (Some (length h)) Hc3 ltac:(cbn; lia))).
    cbn [list_insert insert]. unfold h3, h2.
    by rewrite !list_insert_insert_eq.
  - rewrite length_insert, length_app. cbn. lia.
  - apply cell_insert_eq. rewrite length_app. lia.
  - apply cell_insert_ne; [lia | apply cell_new].
  - intros x Hx Hne. rewrite list_lookup_insert_ne by done.
    by apply lookup_app_l.
Qed.

Lemma view_word_extends (h h' : Mem.heap) (p : option Mem.addr)
    (x : option string) :
  Mem.extends h h' -> Mem.view_word h p = Some x -> Mem.view_word h' p = Some x.
Proof.
  intros Hext. destruct p as [a|]; cbn; [|done].
  destruct (h !! a) as [[[s|]|]|] eqn:Ha; try done.
  by rewrite Hext, Ha by (by eapply lookup_lt_Some).
Qed.

Lemma view_extends (h h' : Mem.heap) (c : Mem.addr) (context : MarkovContext) :
  Mem.extends h h' -> Mem.view h c = Some context -> Mem.view h' c = Some context.
Proof.
  intros Hext. unfold Mem.view.
  destruct (h !! c) as [[[|slots]|]|] eqn:Hc; try done.
  rewrite Hext, Hc by (by eapply lookup_lt_Some).
  destruct (mapM (Mem.view_word h) slots) as [words|] eqn:Hwords; [|done].
  intros [= <-]. apply mapM_Some in Hwords.
  assert (mapM (Mem.view_word h') slots = Some words) as ->; [|done].
  apply mapM_Some. eapply Forall2_impl; [done|].
  intros p x. by apply view_word_extends.
Qed.

Lemma view_inv (h : Mem.heap) (c : Mem.addr) (context : MarkovContext) :
  Mem.view h c = Some context ->
  exists slots : list (option Mem.addr),
    Mem.cell h c (Mem.Context slots) /\
    Forall2 (fun p x => Mem.view_word h p = Some x) slots
            (previous_words context).
Proof.
  unfold Mem.view, Mem.cell.
  destruct (h !! c) as [[[|slots]|]|]; try done.
  destruct (mapM _ slots) as [words|] eqn:Hwords; [|done].
  intros [= <-]. exists slots. split; [done|]. by apply mapM_Some.
Qed.

Lemma view_word_Some (h : Mem.heap) (a : Mem.addr) (x : option string) :
  Mem.view_word h (Some a) = Some x ->
  exists s : string, x = Some s /\ Mem.cell h a (Mem.Chars s).
Proof.
  unfold Mem.cell. cbn. destruct (h !! a) as [[[s|]|]|]; try done.
  intros [= <-]. by exists s.
Qed.

Lemma mem_check_match_from (h : Mem.heap) (a b : Mem.addr)
    (slots_a slots_b : list (option Mem.addr)) (ca cb : MarkovContext)
    (n i : nat) :
  Mem.cell h a (Mem.Context slots_a) -> Mem.cell h b (Mem.Context slots_b) ->
  Forall2 (fun p x => Mem.view_word h p = Some x) slots_a (previous_words ca) ->
  Forall2 (fun p x => Mem.view_word h p = Some x) slots_b (previous_words cb) ->
  (i + n <= length slots_a)%nat -> (i + n <= length slots_b)%nat ->
  Mem.check_match_from a b i n h
  = Ok (forallb (fun i =>
                   match word_at ca i, word_at cb i with
                   | None, None => true
                   | None, Some _ | Some _, None => false
                   | Some word_a, Some word_b => strcmp word_a word_b =? 0
                   end) (seq i n), h).
Proof.
  intros Ha Hb Hva Hvb. revert i.
  induction n as [|n IH]; intros i Hia Hib; [done|].
  destruct (lookup_lt_is_Some_2 slots_a i) as [pa Hpa]; [lia|].
  destruct (lookup_lt_is_Some_2 slots_b i) as [pb Hpb]; [lia|].
  destruct (Forall2_lookup_l _ _ _ _ _ Hva Hpa) as (xa & Hxa & Hwa).
  destruct (Forall2_lookup_l _ _ _ _ _ Hvb Hpb) as (xb & Hxb & Hwb).
  assert (Hca : word_at ca i = xa) by by apply list_lookup_total_correct.
  assert (Hcb : word_at cb i = xb) by by apply list_lookup_total_correct.
  cbn [Mem.check_match_from seq forallb]. rewrite Hca, Hcb.
  rewrite (bind_ok _ _ _ _ _ (load_word_cell _ _ _ _ _ Ha Hpa)).
  rewrite (bind_ok _ _ _ _ _ (load_word_cell _ _ _ _ _ Hb Hpb)).
  destruct pa as [pa|], pb as [pb|].
  - apply view_word_Some in Hwa as (sa & -> & Hsa).
    apply view_word_Some in Hwb as (sb & -> & Hsb).
    unfold Mem.strcmp_at. rewrite !bind_bind.
    rewrite (bind_ok _ _ _ _ _ (load_chars_cell _ _ _ Hsa)).
    rewrite !bind_bind.
    rewrite (bind_ok _ _ _ _ _ (load_chars_cell _ _ _ Hsb)).
    rewrite !bind_ret.
    destruct (strcmp sa sb =? 0); [|done]. apply IH; lia.
  - apply view_word_Some in Hwa as (sa & -> & Hsa).
    cbn in Hwb. by injection Hwb as <-.
  - apply view_word_Some in Hwb as (sb & -> & Hsb).
    cbn in Hwa. by injection Hwa as <-.
  - cbn in Hwa, Hwb. injection Hwa as <-. injection Hwb as <-. apply IH; lia.
Qed.

(** The comparison in memory computes the comparison of the contexts that
    the two structures hold. *)
Lemma mem_check_match_view (h : Mem.heap) (a b : Mem.addr)
    (ca cb : MarkovContext) :
  Mem.view h a = Some ca -> Mem.view h b = Some cb ->
  context_wf ca -> context_wf cb ->
  Mem.markov_context_check_match a b h
  = Ok (markov_context_check_match ca cb, h).
Proof.
  intros (slots_a & Ha & Hva)%view_inv (slots_b & Hb & Hvb)%view_inv Hwa Hwb.
  unfold Mem.markov_context_check_match, markov_context_check_match.
  apply (mem_check_match_from h a b slots_a slots_b); try done.
  - rewrite (Forall2_length _ _ _ Hva). by rewrite Hwa.
  - rewrite (Forall2_length _ _ _ Hvb). by rewrite Hwb.
Qed.

Lemma cell_agree (c : Mem.addr) (h h' : Mem.heap) (x : Mem.addr) (b : Mem.block) :
  Mem.agree_but c h h' -> x <> c -> Mem.cell h x b -> Mem.cell h' x b.
Proof.
  intros Hagree Hne Hx. unfold Mem.cell.
  by rewrite Hagree by (by (eapply cell_lt) || done).
Qed.

Lemma view_word_cell (h : Mem.heap) (a : Mem.addr) (s : string) :
  Mem.cell h a (Mem.Chars s) -> Mem.view_word h (Some a) = Some (Some s).
Proof. intros H. cbn. by rewrite H. Qed.

(** The loop body of [markov_context_copy] for one slot of the original. *)
Lemma copy_body_unfilled (h : Mem.heap) (c c' : Mem.addr)
    (slots : list (option Mem.addr)) (i : nat)
    (k : Mem.addr -> Mem.M (option Mem.addr)) :
  Mem.cell h c (Mem.Context slots) -> slots !! i = Some None ->
  ((word ← Mem.load_word c i;
    if word is Some _ then Mem.markov_context_push_word (Some c') word
    else mret c') ≫= k) h
  = k c' h.
Proof.
  intros Hc Hi. rewrite bind_bind.
  by rewrite (bind_ok _ _ _ _ _ (load_word_cell _ _ _ _ _ Hc Hi)).
Qed.

Lemma copy_body_filled (h : Mem.heap) (c c' a : Mem.addr)
    (slots : list (option Mem.addr)) (i : nat) (q1 q2 : option Mem.addr)
    (s : string) :
  Mem.cell h c (Mem.Context slots) -> slots !! i = Some (Some a) ->
  Mem.cell h a (Mem.Chars s) ->
  Mem.cell h c' (Mem.Context [None; q1; q2]) ->
  exists h' : Mem.heap,
    (forall k : Mem.addr -> Mem.M (option Mem.addr),
        ((word ← Mem.load_word c i;
          if word is Some _ then Mem.markov_context_push_word (Some c') word
          else mret c') ≫= k) h
        = k c' h') /\
    length h' = S (length h) /\
    Mem.cell h' c' (Mem.Context [q1; q2; Some (length h)]) /\
    Mem.cell h' (length h) (Mem.Chars s) /\
    Mem.agree_but c' h h'.
Proof.
  intros Hc Hi Ha Hc'.
  destruct (mem_push_word_unfilled h c' a q1 q2 s Hc' Ha)
    as (h' & Hpush & Hrest).
  exists h'. split; [|done]. intros k. rewrite bind_bind.
  rewrite (bind_ok _ _ _ _ _ (load_word_cell _ _ _ _ _ Hc Hi)).
  by rewrite (bind_ok _ _ _ _ _ Hpush).
Qed.

Lemma extends_agree (h h1 h2 : Mem.heap) (c : Mem.addr) :
  Mem.extends h h1 -> Mem.agree_but c h1 h2 ->
  (length h <= c)%nat -> (length h <= length h1)%nat ->
  Mem.extends h h2.
Proof.
  intros Hext Hagree Hc Hlen a Ha. rewrite Hagree by lia. by apply Hext.
Qed.

(** One filled slot of the original: runs the loop body of the copy at the
    head of the goal, names the new heap [h'], and moves the facts about the
    original, the new structure and the growth of the heap to [h']. *)
Ltac copy_filled i Hc Hn Hext Hlen Ha h' Hs Hag :=
  let Hrun := fresh "Hrun" in
  let Hlen' := fresh "Hlen" in
  let Hnew := fresh "Hnew" in
  destruct (copy_body_filled _ _ _ _ _ i _ _ _ Hc eq_refl Ha Hn)
    as (h' & Hrun & Hlen' & Hnew & Hs & Hag);
  rewrite bind_bind, Hrun; cbn beta; clear Hrun;
  apply (cell_agree _ _ _ _ _ Hag) in Hc; [|lia];
  eapply extends_agree in Hext; [|exact Hag|lia|lia];
  clear Hn; rename Hnew into Hn;
  rewrite Hlen in Hlen', Hs, Hn; clear Hlen; rename Hlen' into Hlen.

Ltac copy_unfilled i Hc :=
  rewrite bind_bind, (copy_body_unfilled _ _ _ _ i _ Hc eq_refl); cbn beta.

Ltac move_cell Hag H := apply (cell_agree _ _ _ _ _ Hag) in H; [|lia].

Ltac fresh_slots :=
  let a := fresh "a" in
  let Ha := fresh "Ha" in
  intros a Ha;
  repeat (apply elem_of_cons in Ha as [Ha|Ha];
          [first [discriminate Ha | (injection Ha as ->; lia)]|]);
  by apply elem_of_nil in Ha.

Ltac distinct_slots :=
  let i := fresh "i" in
  let j := fresh "j" in
  let a := fresh "a" in
  let Hi := fresh "Hi" in
  let Hj := fresh "Hj" in
  intros i j a Hi Hj;
  destruct i as [|[|[|i]]], j as [|[|[|j]]]; simplify_eq/=; done || lia.

Lemma owns_view (h : Mem.heap) (c : Mem.addr) (context : MarkovContext) :
  Mem.owns h c context -> Mem.view h c = Some context.
Proof.
  intros (slots & Hc & Hwords & _). unfold Mem.view. rewrite Hc.
  apply mapM_Some in Hwords. rewrite Hwords. by destruct context.
Qed.

(** The copy of a context whose filled slots are the last ones: what the
    call returns, where the new blocks are, and what they hold. *)
Lemma mem_copy_spec (h : Mem.heap) (c : Mem.addr) (context : MarkovContext) :
  Mem.view h c = Some context ->
  context_wf context ->
  filled_suffix context ->
  exists (c' : Mem.addr) (h' : Mem.heap) (slots' : list (option Mem.addr)),
    Mem.markov_context_copy (Some c) h = Ok (Some c', h') /\
    (length h <= c')%nat /\
    Mem.cell h' c' (Mem.Context slots') /\
    (forall a : Mem.addr, Some a ∈ slots' -> (length h <= a)%nat) /\
    Mem.extends h h' /\
    Mem.owns h' c' context /\
    Mem.markov_context_check_match c c' h' = Ok (true, h') /\
    markov_context_copy (Some context) = Ok (Some context).
Proof.
  intros Hview Hwf Hfs.
  destruct (view_inv _ _ _ Hview) as (slots & Hc & Hslots).
  destruct (context_wf_inv _ Hwf) as (x0 & x1 & x2 & ->).
  cbn [previous_words] in Hslots.
  apply filled_suffix_slots in Hfs as [H01 H12].
  destruct slots as [|p0 [|p1 [|p2 [|? ?]]]];
    try (by apply Forall2_length in Hslots).
  apply Forall2_cons in Hslots as [Hx0 Hslots].
  apply Forall2_cons in Hslots as [Hx1 Hslots].
  apply Forall2_cons in Hslots as [Hx2 _].
  pose proof (cell_lt _ _ _ Hc) as Hlt.
  cut (exists (h' : Mem.heap) (slots' : list (option Mem.addr)),
          Mem.markov_context_copy (Some c) h = Ok (Some (length h), h') /\
          Mem.cell h' (length h) (Mem.Context slots') /\
          (forall a : Mem.addr, Some a ∈ slots' -> (length h <= a)%nat) /\
          Mem.extends h h' /\
          Forall2 (fun p x => Mem.view_word h' p = Some x) slots' [x0; x1; x2] /\
          (forall (i j : nat) (a : Mem.addr),
              slots' !! i = Some (Some a) -> slots' !! j = Some (Some a) ->
              i = j) /\
          markov_context_copy (Some {| previous_words := [x0; x1; x2] |})
          = Ok (Some {| previous_words := [x0; x1; x2] |})).
  { intros (h' & slots' & Hcopy & Hc' & Hfresh & Hext & Hwords & Hinj & Hpure).
    assert (Howns : Mem.owns h' (length h) {| previous_words := [x0; x1; x2] |})
      by (by exists slots').
    exists (length h), h', slots'. repeat (split; [done|]). split; [|done].
    rewrite (mem_check_match_view h' c (length h) _ _
               (view_extends _ _ _ _ Hext Hview) (owns_view _ _ _ Howns)
               Hwf Hwf).
    by rewrite check_match_refl. }
  assert (Hpure : forall y0 y1 y2 : option string,
             (is_Some y0 -> is_Some y1) -> (is_Some y1 -> is_Some y2) ->
             markov_context_copy (Some {| previous_words := [y0; y1; y2] |})
             = Ok (Some {| previous_words := [y0; y1; y2] |})).
  { intros [y0|] [y1|] [y2|] Hy01 Hy12; try reflexivity; exfalso;
      first [by (destruct Hy01 as [? [=]]; eauto)
            |by (destruct Hy12 as [? [=]]; eauto)]. }
  specialize (Hpure x0 x1 x2 H01 H12).
  unfold Mem.markov_context_copy, Mem.markov_context_new.
  rewrite (bind_ok _ _ h _ _ eq_refl).
  change (replicate MARKOV_CONTEXT_SIZE None)
    with [@None Mem.addr; None; None].
  change MARKOV_CONTEXT_SIZE with 3%nat. cbn [Mem.for_loop].
  destruct p2 as [a2|];
    [apply view_word_Some in Hx2 as (s2 & -> & Ha2)
    |cbn in Hx2; injection Hx2 as <-];
    (destruct p1 as [a1|];
     [apply view_word_Some in Hx1 as (s1 & -> & Ha1)
     |cbn in Hx1; injection Hx1 as <-]);
    (destruct p0 as [a0|];
     [apply view_word_Some in Hx0 as (s0 & -> & Ha0)
     |cbn in Hx0; injection Hx0 as <-]);
    try (exfalso; first [by (destruct H01 as [? [=]]; eauto)
                        |by (destruct H12 as [? [=]]; eauto)]);
    repeat match goal with
           | H : Mem.cell h _ (Mem.Chars _) |- _ =>
               pose proof (cell_lt _ _ _ H);
               apply (cell_app _ [Some (Mem.Context [None; None; None])]) in H
           end;
    pose proof (cell_app _ [Some (Mem.Context [None; None; None])] _ _ Hc) as Hc1;
    pose proof (cell_new h (Mem.Context [None; None; None])) as Hn1;
    assert (Hext1 : Mem.extends h (h ++ [Some (Mem.Context [None; None; None])]))
      by (intros a Ha; by apply lookup_app_l);
    assert (Hlen1 : length (h ++ [Some (Mem.Context [None; None; None])])
                    = S (length h))
      by (rewrite length_app; cbn; lia);
    set (h1 := h ++ [Some (Mem.Context [None; None; None])]) in *;
    clearbody h1.
  - (* three words *)
    copy_filled 0%nat Hc1 Hn1 Hext1 Hlen1 Ha0 h2 Hs0 Hag2.
    move_cell Hag2 Ha1. move_cell Hag2 Ha2.
    copy_filled 1%nat Hc1 Hn1 Hext1 Hlen1 Ha1 h3 Hs1 Hag3.
    move_cell Hag3 Ha2. move_cell Hag3 Hs0.
    copy_filled 2%nat Hc1 Hn1 Hext1 Hlen1 Ha2 h4 Hs2 Hag4.
    move_cell Hag4 Hs0. move_cell Hag4 Hs1.
    eexists h4, _. split; [reflexivity|]. split; [exact Hn1|].
    split; [fresh_slots|]. split; [done|]. split; [|split; [distinct_slots|done]].
    repeat apply Forall2_cons_2; by apply view_word_cell || constructor.
  - (* two words *)
    copy_unfilled 0%nat Hc1.
    copy_filled 1%nat Hc1 Hn1 Hext1 Hlen1 Ha1 h2 Hs1 Hag2.
    move_cell Hag2 Ha2.
    copy_filled 2%nat Hc1 Hn1 Hext1 Hlen1 Ha2 h3 Hs2 Hag3.
    move_cell Hag3 Hs1.
    eexists h3, _. split; [reflexivity|]. split; [exact Hn1|].
    split; [fresh_slots|]. split; [done|]. split; [|split; [distinct_slots|done]].
    repeat apply Forall2_cons_2; by apply view_word_cell || constructor.
  - (* one word *)
    copy_unfilled 0%nat Hc1. copy_unfilled 1%nat Hc1.
    copy_filled 2%nat Hc1 Hn1 Hext1 Hlen1 Ha2 h2 Hs2 Hag2.
    eexists h2, _. split; [reflexivity|]. split; [exact Hn1|].
    split; [fresh_slots|]. split; [done|]. split; [|split; [distinct_slots|done]].
    repeat apply Forall2_cons_2; by apply view_word_cell || constructor.
  - (* no word *)
    copy_unfilled 0%nat Hc1. copy_unfilled 1%nat Hc1. copy_unfilled 2%nat Hc1.
    eexists h1, _. split; [reflexivity|]. split; [exact Hn1|].
    split; [fresh_slots|]. split; [done|]. split; [|split; [distinct_slots|done]].
    by repeat constructor.
Qed.

(** ** Contexts in memory: push *)

Lemma free_cell (h : Mem.heap) (a : Mem.addr) (b : Mem.block) :
  Mem.cell h a b -> Mem.free (Some a) h = Ok ((), <[a := None]> h).
Proof. intros H. unfold Mem.free. by rewrite H. Qed.

Lemma cell_kind (h : Mem.heap) (c a : Mem.addr) (slots : list (option Mem.addr))
    (s : string) :
  Mem.cell h c (Mem.Context slots) -> Mem.cell h a (Mem.Chars s) -> a <> c.
Proof. unfold Mem.cell. intros Hc Ha ->. congruence. Qed.

Lemma mem_push_word_filled (h : Mem.heap) (c a a0 : Mem.addr)
    (p1 p2 : option Mem.addr) (s s0 : string) :
  Mem.cell h c (Mem.Context [Some a0; p1; p2]) ->
  Mem.cell h a0 (Mem.Chars s0) -> Mem.cell h a (Mem.Chars s) ->
  Mem.markov_context_push_word (Some c) (Some a) h
  = Ok (c, <[c := Some (Mem.Context [p1; p2; Some (length h)])]>
             (<[a0 := None]> (h ++ [Some (Mem.Chars s)]))).
Proof.
  intros Hc Ha0 Ha. pose proof (cell_lt _ _ _ Hc) as Hlt.
  pose proof (cell_kind _ _ _ _ _ Hc Ha0) as Hne.
  unfold Mem.markov_context_push_word.
  rewrite bind_ret, (bind_ok _ _ _ _ _ (strdup_cell _ _ _ Ha)).
  set (h1 := h ++ [Some (Mem.Chars s)]).
  assert (Hc1 : Mem.cell h1 c (Mem.Context [Some a0; p1; p2])) by by apply cell_app.
  assert (Ha1 : Mem.cell h1 a0 (Mem.Chars s0)) by by apply cell_app.
  rewrite (bind_ok _ _ _ _ _ (load_word_cell _ _ _ 0 (Some a0) Hc1 eq_refl)).
  rewrite (bind_ok _ _ _ _ _ (free_cell _ _ _ Ha1)).
  set (h2 := <[a0 := None]> h1).
  assert (Hlt2 : (c < length h2)%nat)
    by (unfold h2, h1; rewrite length_insert, length_app; lia).
  assert (Hc2 : Mem.cell h2 c (Mem.Context [Some a0; p1; p2]))
    by (apply cell_insert_ne; [lia | done]).
  change (MARKOV_CONTEXT_SIZE - 1)%nat with 2%nat. cbn [Mem.for_loop].
  rewrite !bind_bind.
  rewrite (bind_ok _ _ _ _ _ (load_word_cell _ _ _ 1 p1 Hc2 eq_refl)).
  rewrite (bind_ok _ _ _ _ _ (store_word_cell _ _ _ 0 p1 Hc2 ltac:(cbn; lia))).
  cbn [list_insert insert].
  set (h3 := <[c := _]> h2).
  assert (Hc3 : Mem.cell h3 c (Mem.Context [p1; p1; p2])) by by apply cell_insert_eq.
  rewrite !bind_bind.
  rewrite (bind_ok _ _ _ _ _ (load_word_cell _ _ _ 2 p2 Hc3 eq_refl)).
  rewrite (bind_ok _ _ _ _ _ (store_word_cell _ _ _ 1 p2 Hc3 ltac:(cbn; lia))).
  cbn [list_insert insert].
  set (h4 := <[c := _]> h3).
  assert (Hc4 : Mem.cell h4 c (Mem.Context [p1; p2; p2])).
  { apply cell_insert_eq. unfold h3. by rewrite length_insert. }
  rewrite bind_ret.
  rewrite (bind_ok _ _ _ _ _
             (store_word_cell _ _ _ 2 (Some (length h)) Hc4 ltac:(cbn; lia))).
  cbn [list_insert insert]. unfold h4, h3.
  by rewrite !list_insert_insert_eq.
Qed.

Lemma view_word_move (h h' : Mem.heap) (p : option Mem.addr) (x : option string) :
  Mem.view_word h p = Some x ->
  (forall a : Mem.addr, p = Some a -> h' !! a = h !! a) ->
  Mem.view_word h' p = Some x.
Proof.
  destruct p as [a|]; [|done]. cbn. intros Hx Hmove.
  by rewrite (Hmove a eq_refl).
Qed.

(** X18. Pushing a word in memory is pushing it in the context that the
    structure holds, when the structure holds every word in a block of its
    own. The same address is returned; the word is duplicated into a new
    block, the one block by which the heap grows; the slots move down by one
    and the last slot points to the duplicate; the block of the word that
    leaves the window is freed, and no other block of the heap changes but the
    structure. The pushed word may be any live string. *)
Lemma mem_push_word_view (h : Mem.heap) (c a : Mem.addr)
    (slots : list (option Mem.addr)) (context : MarkovContext) (s : string) :
  Mem.cell h c (Mem.Context slots) ->
  Forall2 (fun p x => Mem.view_word h p = Some x) slots (previous_words context) ->
  (forall (i j : nat) (a : Mem.addr),
      slots !! i = Some (Some a) -> slots !! j = Some (Some a) -> i = j) ->
  context_wf context -> Mem.cell h a (Mem.Chars s) ->
  exists (h' : Mem.heap) (context' : MarkovContext),
    Mem.markov_context_push_word (Some c) (Some a) h = Ok (c, h') /\
    markov_context_push_word (Some context) (Some s) = Ok context' /\
    context_wf context' /\
    Mem.owns h' c context' /\
    length h' = S (length h) /\
    Mem.cell h' (length h) (Mem.Chars s) /\
    Mem.cell h' c (Mem.Context (drop 1 slots ++ [Some (length h)])) /\
    (forall a0 : Mem.addr, slots !! 0%nat = Some (Some a0) -> h' !! a0 = Some None) /\
    (forall x : Mem.addr,
        (x < length h)%nat -> x <> c -> slots !! 0%nat <> Some (Some x) ->
        h' !! x = h !! x).
Proof.
  intros Hc Hview Hinj Hwf Ha.
  destruct (context_wf_inv _ Hwf) as (x0 & x1 & x2 & ->).
  cbn [previous_words] in Hview.
  destruct slots as [|p0 [|p1 [|p2 [|? ?]]]];
    try (by apply Forall2_length in Hview).
  apply Forall2_cons in Hview as [Hx0 Hview].
  apply Forall2_cons in Hview as [Hx1 Hview].
  apply Forall2_cons in Hview as [Hx2 _].
  pose proof (cell_lt _ _ _ Hc) as Hlt.
  assert (Hrun : exists h' : Mem.heap,
             Mem.markov_context_push_word (Some c) (Some a) h = Ok (c, h') /\
             length h' = S (length h) /\
             Mem.cell h' c (Mem.Context [p1; p2; Some (length h)]) /\
             Mem.cell h' (length h) (Mem.Chars s) /\
             (forall a0 : Mem.addr, p0 = Some a0 -> h' !! a0 = Some None) /\
             forall x : Mem.addr,
               (x < length h)%nat -> x <> c -> p0 <> Some x ->
               h' !! x = h !! x).
  { destruct p0 as [a0|].
    - apply view_word_Some in Hx0 as (s0 & -> & Ha0).
      pose proof (cell_lt _ _ _ Ha0) as Hlt0.
      pose proof (cell_kind _ _ _ _ _ Hc Ha0) as Hne0.
      eexists. split; [by eapply mem_push_word_filled|].
      split; [|split; [|split; [|split]]].
      + rewrite !length_insert, length_app. cbn. lia.
      + apply cell_insert_eq. rewrite length_insert, length_app. lia.
      + apply cell_insert_ne; [lia|]. apply cell_insert_ne; [lia|].
        apply cell_new.
      + intros ? [= <-]. rewrite list_lookup_insert_ne by done.
        apply list_lookup_insert_eq. rewrite length_app. lia.
      + intros x Hx Hxc Hx0.
        rewrite !list_lookup_insert_ne by congruence. by apply lookup_app_l.
    - destruct (mem_push_word_unfilled h c a p1 p2 s Hc Ha)
        as (h' & Hpush & Hlen' & Hc' & Hs' & Hagree).
      exists h'. repeat (split; [done|]).
      intros x Hx Hxc _. by apply Hagree. }
  destruct Hrun as (h' & Hpush & Hlen' & Hc' & Hs' & Hfreed & Hkeep).
  exists h', {| previous_words := [x1; x2; Some s] |}.
  split; [done|]. split; [reflexivity|]. split; [reflexivity|].
  assert (Hlive : forall (i : nat) (x : Mem.addr),
             [p0; p1; p2] !! i = Some (Some x) -> (x < length h)%nat /\ x <> c).
  { intros i x Hi.
    assert (exists sx, Mem.cell h x (Mem.Chars sx)) as [sx Hsx].
    { destruct i as [|[|[|i]]]; cbn in Hi; try discriminate;
        injection Hi as ->;
        match goal with
        | H : Mem.view_word h (Some x) = Some _ |- _ =>
            apply view_word_Some in H as (sx & _ & H); by exists sx
        end. }
    split; [by eapply cell_lt | exact (cell_kind _ _ _ _ _ Hc Hsx)]. }
  split; [|split; [done|]; split; [done|]; split; [done|]; split].
  - exists [p1; p2; Some (length h)]. split; [done|]. split.
    + repeat apply Forall2_cons_2; [..|constructor].
      * apply (view_word_move h); [done|]. intros x ->.
        destruct (Hlive 1%nat x eq_refl) as [Hx Hxc]. apply Hkeep; [done..|].
        intros ->. by specialize (Hinj 0%nat 1%nat x eq_refl eq_refl).
      * apply (view_word_move h); [done|]. intros x ->.
        destruct (Hlive 2%nat x eq_refl) as [Hx Hxc]. apply Hkeep; [done..|].
        intros ->. by specialize (Hinj 0%nat 2%nat x eq_refl eq_refl).
      * by apply view_word_cell.
    + intros i j x Hi Hj.
      destruct i as [|[|[|i]]], j as [|[|[|j]]]; simplify_eq/=; try done; exfalso;
        first [ by specialize (Hinj 1%nat 2%nat x eq_refl eq_refl)
              | (destruct (Hlive 1%nat (length h) eq_refl); lia)
              | (destruct (Hlive 2%nat (length h) eq_refl); lia) ].
  - intros a0 [= ->]. by apply Hfreed.
  - intros x Hx Hxc Hfirst. apply Hkeep; [done..|]. by intros ->.
Qed.

(** ** Contexts in memory: new and reset *)

(** X17. [markov_context_new] in memory: the structure is a new block, at
    an address that was not in use, with every slot NULL; no block of the heap
    is changed. *)
Lemma mem_new_view (h : Mem.heap) :
  exists h' : Mem.heap,
    Mem.markov_context_new h = Ok (length h, h') /\
    Mem.owns h' (length h) markov_context_new /\
    Mem.extends h h'.
Proof.
  eexists. split; [reflexivity|]. split.
  - exists [None; None; None]. split; [apply cell_new|]. split.
    + by repeat constructor.
    + intros [|[|[|i]]] j a Hi; by cbn in Hi.
  - intros a Ha. by apply lookup_app_l.
Qed.

Lemma reset_body (h : Mem.heap) (c : Mem.addr) (slots : list (option Mem.addr))
    (i : nat) (p : option Mem.addr) :
  Mem.cell h c (Mem.Context slots) -> slots !! i = Some p ->
  (forall a : Mem.addr, p = Some a -> a <> c /\ exists b, Mem.cell h a b) ->
  exists h' : Mem.heap,
    (p ← Mem.load_word c i; _ ← Mem.free p; Mem.store_word c i None) h
    = Ok ((), h') /\
    Mem.cell h' c (Mem.Context (<[i := None]> slots)) /\
    forall x : Mem.addr, x <> c -> p <> Some x -> h' !! x = h !! x.
Proof.
  intros Hc Hi Hlive. pose proof (cell_lt _ _ _ Hc) as Hlt.
  pose proof (lookup_lt_Some _ _ _ Hi) as Hilt.
  rewrite (bind_ok _ _ _ _ _ (load_word_cell _ _ _ _ _ Hc Hi)).
  destruct p as [a|].
  - destruct (Hlive a eq_refl) as [Hne [b Ha]].
    rewrite (bind_ok _ _ _ _ _ (free_cell _ _ _ Ha)).
    assert (Hc1 : Mem.cell (<[a := None]> h) c (Mem.Context slots))
      by (by apply cell_insert_ne).
    rewrite (store_word_cell _ _ _ _ _ Hc1 Hilt).
    eexists. split; [reflexivity|]. split.
    + apply cell_insert_eq. by rewrite length_insert.
    + intros x Hxc Hxa. rewrite !list_lookup_insert_ne by congruence. done.
  - cbn [Mem.free]. rewrite bind_ret, (store_word_cell _ _ _ _ _ Hc Hilt).
    eexists. split; [reflexivity|]. split.
    + by apply cell_insert_eq.
    + intros x Hxc _. by rewrite list_lookup_insert_ne.
Qed.

(** Resetting a context in memory frees its words and leaves the structure
    with the context that the reset on values returns; no block but the
    structure and its words is touched. *)
Lemma mem_reset_spec (h : Mem.heap) (c : Mem.addr)
    (slots : list (option Mem.addr)) (context : MarkovContext) :
  Mem.cell h c (Mem.Context slots) ->
  Forall2 (fun p x => Mem.view_word h p = Some x) slots (previous_words context) ->
  (forall (i j : nat) (a : Mem.addr),
      slots !! i = Some (Some a) -> slots !! j = Some (Some a) -> i = j) ->
  context_wf context ->
  exists h' : Mem.heap,
    Mem.markov_context_reset (Some c) h = Ok (c, h') /\
    Mem.owns h' c (markov_context_reset (Some context)) /\
    forall x : Mem.addr, x <> c -> Some x ∉ slots -> h' !! x = h !! x.
Proof.
  intros Hc Hview Hinj Hwf.
  destruct (context_wf_inv _ Hwf) as (x0 & x1 & x2 & ->).
  cbn [previous_words] in Hview.
  destruct slots as [|p0 [|p1 [|p2 [|? ?]]]];
    try (by apply Forall2_length in Hview).
  assert (Hlive : forall (i : nat) (x : Mem.addr),
             [p0; p1; p2] !! i = Some (Some x) ->
             x <> c /\ exists b, Mem.cell h x b).
  { intros i x Hi.
    destruct (Forall2_lookup_l _ _ _ _ _ Hview Hi) as (w & _ & Hw).
    apply view_word_Some in Hw as (sx & _ & Hsx).
    split; [exact (cell_kind _ _ _ _ _ Hc Hsx) | by eexists]. }
  destruct (reset_body h c [p0; p1; p2] 0 p0 Hc eq_refl)
    as (h1 & Hrun1 & Hc1 & Hkeep1).
  { intros a ->. by apply (Hlive 0%nat). }
  cbn [list_insert insert] in Hc1.
  destruct (reset_body h1 c [None; p1; p2] 1 p1 Hc1 eq_refl)
    as (h2 & Hrun2 & Hc2 & Hkeep2).
  { intros a ->. destruct (Hlive 1%nat a eq_refl) as [Hne [b Hb]].
    split; [done|]. exists b. unfold Mem.cell. rewrite Hkeep1; [done..|].
    intros ->. by specialize (Hinj 0%nat 1%nat a eq_refl eq_refl). }
  cbn [list_insert insert] in Hc2.
  destruct (reset_body h2 c [None; None; p2] 2 p2 Hc2 eq_refl)
    as (h3 & Hrun3 & Hc3 & Hkeep3).
  { intros a ->. destruct (Hlive 2%nat a eq_refl) as [Hne [b Hb]].
    split; [done|]. exists b. unfold Mem.cell.
    rewrite Hkeep2, Hkeep1; [done..| |done|].
    - intros ->. by specialize (Hinj 0%nat 2%nat a eq_refl eq_refl).
    - intros ->. by specialize (Hinj 1%nat 2%nat a eq_refl eq_refl). }
  cbn [list_insert insert] in Hc3.
  exists h3. split; [|split].
  - unfold Mem.markov_context_reset.
    change MARKOV_CONTEXT_SIZE with 3%nat. cbn [Mem.for_loop].
    rewrite bind_bind, (bind_ok _ _ _ _ _ Hrun1). cbn beta.
    rewrite bind_bind, (bind_ok _ _ _ _ _ Hrun2). cbn beta.
    rewrite bind_bind, (bind_ok _ _ _ _ _ Hrun3). reflexivity.
  - exists [None; None; None]. split; [done|]. split.
    + by repeat constructor.
    + intros [|[|[|i]]] j a Hi; by cbn in Hi.
  - intros x Hxc Hx. rewrite !not_elem_of_cons in Hx.
    destruct Hx as (Hx0 & Hx1 & Hx2 & _).
    rewrite Hkeep3, Hkeep2, Hkeep1; done || congruence.
Qed.

(** X19. [markov_context_reset] in memory, on a context that owns its words:
    it returns the same address, whose structure then holds the context that
    the reset on values returns. *)
Lemma mem_reset_view (h : Mem.heap) (c : Mem.addr) (context : MarkovContext) :
  Mem.owns h c context -> context_wf context ->
  exists h' : Mem.heap,
    Mem.markov_context_reset (Some c) h = Ok (c, h') /\
    Mem.owns h' c (markov_context_reset (Some context)).
Proof.
  intros (slots & Hc & Hview & Hinj) Hwf.
  destruct (mem_reset_spec h c slots context Hc Hview Hinj Hwf)
    as (h' & Hreset & Howns & _).
  by exists h'.
Qed.

(** ** Contexts in memory: the copy is independent *)

(** C4, as the code has it. For a context in memory whose filled slots are
    the last ones of the window, [markov_context_copy] returns the address of
    a new structure whose words are new blocks, and leaves every block of the
    heap it started from as it was; the new context matches the original
    under [markov_context_check_match], slot by slot, and holds the same
    context, which is also what the copy on values returns. The two do not
    share: resetting the copy, which frees its words, leaves the original
    with its context. *)
Theorem copy_independent_equal (h : Mem.heap) (c : Mem.addr)
    (context : MarkovContext) :
  Mem.view h c = Some context ->
  context_wf context ->
  filled_suffix context ->
  exists (c' : Mem.addr) (h' : Mem.heap) (slots' : list (option Mem.addr)),
    Mem.markov_context_copy (Some c) h = Ok (Some c', h') /\
    (length h <= c')%nat /\
    Mem.cell h' c' (Mem.Context slots') /\
    (forall a : Mem.addr, Some a ∈ slots' -> (length h <= a)%nat) /\
    Mem.extends h h' /\
    Mem.view h' c' = Some context /\
    Mem.markov_context_check_match c c' h' = Ok (true, h') /\
    markov_context_copy (Some context) = Ok (Some context) /\
    exists h'' : Mem.heap,
      Mem.markov_context_reset (Some c') h' = Ok (c', h'') /\
      Mem.view h'' c' = Some markov_context_new /\
      Mem.view h'' c = Some context.
Proof.
  intros Hview Hwf Hfs.
  destruct (mem_copy_spec h c context Hview Hwf Hfs)
    as (c' & h' & slots' & Hcopy & Hnew & Hc' & Hfresh & Hext & Howns
        & Hmatch & Hpure).
  exists c', h', slots'. repeat (split; [done|]).
  split; [by apply owns_view|]. repeat (split; [done|]).
  destruct Howns as (slots & Hcell & Hwords & Hinj).
  assert (slots = slots') as -> by (unfold Mem.cell in *; congruence).
  destruct (mem_reset_spec h' c' slots' context Hcell Hwords Hinj Hwf)
    as (h'' & Hreset & Howns'' & Hkeep).
  exists h''. split; [done|]. split.
  - apply owns_view in Howns''.
    destruct (context_wf_inv _ Hwf) as (x0 & x1 & x2 & ->). exact Howns''.
  - apply (view_extends h); [|done]. intros a Ha.
    rewrite Hkeep; [by apply Hext | lia |].
    intros Hin%Hfresh. lia.
Qed.


End Properties.

(** * The model, the trainer and the generator *)

Section ModelProperties.

Variable char_signed : bool.
Variable rand : nat -> Z.

Arguments markov_context_check_match : simpl never.
Arguments markov_context_get_hash : simpl never.
Arguments markov_context_copy : simpl never.
Arguments markov_value_get_random : simpl never.
Arguments markov_value_add_word : simpl never.
Arguments markov_model_add_data : simpl never.
Arguments markov_model_get_next : simpl never.
Arguments add_word_to_quote : simpl never.
Arguments check_end_condition : simpl never.
Arguments sum_counts : simpl never.
Arguments to_size_t : simpl never.

Lemma check_match_congr (a b c : MarkovContext) :
  markov_context_check_match a b = true ->
  markov_context_check_match a c = markov_context_check_match b c.
Proof.
  intros Hab.
  destruct (markov_context_check_match b c) eqn:Hbc.
  - by eapply check_match_trans.
  - destruct (markov_context_check_match a c) eqn:Hac; [|done].
    rewrite <- Hbc. symmetry.
    eapply check_match_trans; [|done]. by apply check_match_sym.
Qed.

Lemma check_match_congr_r (a b c : MarkovContext) :
  markov_context_check_match a b = true ->
  markov_context_check_match c a = markov_context_check_match c b.
Proof.
  intros Hab.
  destruct (markov_context_check_match c b) eqn:Hcb.
  - eapply check_match_trans; [done|]. by apply check_match_sym.
  - destruct (markov_context_check_match c a) eqn:Hca; [|done].
    rewrite <- Hcb. symmetry. by eapply check_match_trans.
Qed.

Lemma node_find_congr (node : list MarkovNode) (a b : MarkovContext) :
  markov_context_check_match a b = true -> node_find node a = node_find node b.
Proof.
  intros Hab. induction node as [|cell next IH]; [done|]. cbn.
  by rewrite (check_match_congr_r a b _ Hab), IH.
Qed.

Lemma node_lookup_find (node : list MarkovNode) (context : MarkovContext)
    (calls : nat) :
  node_lookup rand node context calls
  = match node_find node context with
    | None => Ok (None, calls)
    | Some value =>
        word ← markov_value_get_random value (rand calls);
        Ok (Some word, S calls)
    end.
Proof.
  induction node as [|cell next IH]; [done|]. cbn.
  by destruct (markov_context_check_match _ _).
Qed.

Lemma node_update_None (node : list MarkovNode) (context : MarkovContext)
    (word : string) :
  node_update node context word = None <-> node_find node context = None.
Proof.
  induction node as [|cell next IH]; [done|]. cbn.
  destruct (markov_context_check_match _ _); [done|].
  rewrite <- IH. by destruct (node_update next context word).
Qed.

Lemma node_update_find (node node' : list MarkovNode) (context : MarkovContext)
    (word : string) :
  node_update node context word = Some node' ->
  exists value,
    node_find node context = Some value /\
    forall context',
      node_find node' context'
      = if markov_context_check_match context context'
        then Some (markov_value_add_word value word)
        else node_find node context'.
Proof.
  revert node'. induction node as [|cell next IH]; [done|]. cbn. intros node'.
  destruct (markov_context_check_match (node_context cell) context) eqn:Hcell.
  - intros [= <-]. exists (node_value cell). split; [done|].
    intros context'. cbn.
    rewrite (check_match_congr _ _ context' Hcell).
    by destruct (markov_context_check_match context context').
  - destruct (node_update next context word) as [next'|]; [|done].
    intros [= <-]. destruct (IH _ eq_refl) as (value & Hfind & Hother).
    exists value. split; [done|]. intros context'. cbn. rewrite Hother.
    destruct (markov_context_check_match (node_context cell) context') eqn:Hc';
      [|done].
    destruct (markov_context_check_match context context') eqn:Hcc; [|done].
    rewrite (check_match_congr_r _ _ (node_context cell) Hcc) in Hcell.
    congruence.
Qed.


Lemma copy_total (context : MarkovContext) :
  exists context', markov_context_copy (Some context) = Ok (Some context').
Proof.
  unfold markov_context_copy, MARKOV_CONTEXT_SIZE. cbn [for_loop].
  destruct (word_at context 0), (word_at context 1), (word_at context 2);
    cbn; by eexists.
Qed.

Lemma node_add_node_find (node : list MarkovNode) (context : MarkovContext)
    (word : string) :
  filled_suffix context ->
  exists node',
    markov_node_add_node node context word = Ok node' /\
    forall context',
      node_find node' context'
      = if markov_context_check_match context context'
        then Some (markov_value_add_word
                     (default [] (node_find node context)) word)
        else node_find node context'.
Proof.
  intros Hfs. unfold markov_node_add_node.
  destruct (node_update node context word) as [node'|] eqn:Hupdate.
  - exists node'. split; [done|].
    destruct (node_update_find _ _ _ _ Hupdate) as (value & -> & Hother).
    done.
  - apply node_update_None in Hupdate.
    destruct (copy_matches context Hfs) as (context0 & -> & Hmatch).
    eexists. split; [reflexivity|]. intros context'. cbn.
    rewrite (check_match_congr _ _ context' Hmatch), Hupdate.
    destruct (markov_context_check_match context context') eqn:Hcc; [done|].
    done.
Qed.

Lemma bucket_index_congr (model : MarkovModel) (a b : MarkovContext) :
  markov_context_check_match a b = true ->
  bucket_index char_signed model a = bucket_index char_signed model b.
Proof.
  intros Hab. unfold bucket_index.
  by rewrite (check_match_get_hash char_signed a b Hab).
Qed.

Lemma model_find_congr (model : MarkovModel) (a b : MarkovContext) :
  markov_context_check_match a b = true ->
  model_find char_signed model a = model_find char_signed model b.
Proof.
  intros Hab. unfold model_find. rewrite (bucket_index_congr model a b Hab).
  destruct (bucket_index _ _ _); [|done]. by apply node_find_congr.
Qed.

Lemma get_next_find (model : MarkovModel) (context : MarkovContext)
    (calls : nat) :
  model_wf model -> 0 < model_size model ->
  markov_model_get_next char_signed rand (Some model) context calls
  = match model_find char_signed model context with
    | None => Ok (None, calls)
    | Some value =>
        word ← markov_value_get_random value (rand calls);
        Ok (Some word, S calls)
    end.
Proof.
  intros Hwf Hpos.
  destruct (bucket_index_in_range char_signed model context Hwf Hpos)
    as (index & bucket & Hindex & Hbucket).
  unfold markov_model_get_next, model_find. rewrite Hindex. cbn.
  rewrite Hbucket. cbn. apply node_lookup_find.
Qed.

Lemma add_data_find (model : MarkovModel) (context : MarkovContext)
    (word : string) :
  model_wf model -> 0 < model_size model -> filled_suffix context ->
  exists model',
    markov_model_add_data char_signed (Some model) context word
      = Ok (Some model') /\
    model_wf model' /\
    model_size model' = model_size model /\
    forall context',
      model_find char_signed model' context'
      = if markov_context_check_match context context'
        then Some (markov_value_add_word
                     (default [] (model_find char_signed model context)) word)
        else model_find char_signed model context'.
Proof.
  intros Hwf Hpos Hfs.
  destruct (bucket_index_in_range char_signed model context Hwf Hpos)
    as (index & bucket & Hindex & Hbucket).
  destruct (node_add_node_find bucket context word Hfs)
    as (bucket' & Hadd & Hfind).
  eexists. split; [|split; [|split]].
  - unfold markov_model_add_data. rewrite Hindex. cbn. rewrite Hbucket, Hadd.
    reflexivity.
  - destruct Hwf as [Hsize Hlen]. split; [done|]. cbn. by rewrite length_insert.
  - done.
  - intros context'.
    assert (Hmodel : model_find char_signed model context
                     = node_find bucket context).
    { unfold model_find. by rewrite Hindex, Hbucket. }
    rewrite Hmodel.
    unfold model_find at 1. unfold bucket_index. cbn [model_size model_nodes].
    fold (bucket_index char_signed model context').
    destruct (markov_context_check_match context context') eqn:Hcc.
    + rewrite <- (bucket_index_congr model _ _ Hcc), Hindex.
      rewrite list_lookup_insert_eq by (by eapply lookup_lt_Some). cbn.
      by rewrite Hfind, Hcc.
    + unfold model_find.
      destruct (bucket_index char_signed model context') as [index'|]; [|done].
      destruct (decide (index = index')) as [<-|Hne].
      * rewrite list_lookup_insert_eq by (by eapply lookup_lt_Some).
        rewrite Hbucket. cbn. by rewrite Hfind, Hcc.
      * by rewrite list_lookup_insert_ne.
Qed.


Lemma model_new_wf (size : Z) :
  0 <= size < SIZE_MODULUS -> model_wf (markov_model_new size).
Proof. intros H. split; [done|]. cbn. by rewrite length_replicate. Qed.

Lemma model_new_find (size : Z) (context : MarkovContext) :
  model_find char_signed (markov_model_new size) context = None.
Proof.
  unfold model_find. destruct (bucket_index _ _ _) as [index|]; [|done].
  cbn. destruct (replicate (Z.to_nat size) [] !! index) as [bucket|] eqn:Hb;
    [|done].
  by apply lookup_replicate in Hb as [-> _].
Qed.

Lemma followers_snoc (pairs : list (MarkovContext * string))
    (pair : MarkovContext * string) (context : MarkovContext) :
  followers (pairs ++ [pair]) context
  = followers pairs context
    ++ (if markov_context_check_match pair.1 context then [pair.2] else []).
Proof.
  unfold followers. rewrite filter_app, fmap_app. f_equal.
  rewrite filter_cons, filter_nil.
  destruct (markov_context_check_match pair.1 context); by case_decide.
Qed.

Lemma followers_congr (pairs : list (MarkovContext * string))
    (a b : MarkovContext) :
  markov_context_check_match a b = true -> followers pairs a = followers pairs b.
Proof.
  intros Hab. unfold followers. f_equal. apply list_filter_iff.
  intros pair. by rewrite (check_match_congr_r a b _ Hab).
Qed.

Lemma add_all_find (pairs : list (MarkovContext * string)) (size : Z) :
  0 < size < SIZE_MODULUS ->
  Forall (fun pair => filled_suffix pair.1) pairs ->
  exists model,
    add_all char_signed pairs (Some (markov_model_new size)) = Ok (Some model) /\
    model_wf model /\ model_size model = size /\
    forall context,
      model_find char_signed model context
      = if followers pairs context is [] then None
        else Some (table_of (followers pairs context)).
Proof.
  intros Hsize.
  induction pairs as [|pair pairs IH] using rev_ind; intros Hfs.
  - exists (markov_model_new size). split; [done|].
    split; [apply model_new_wf; lia|]. split; [done|].
    intros context. apply model_new_find.
  - apply Forall_app in Hfs as [Hfs Hpair].
    apply Forall_inv in Hpair.
    destruct (IH Hfs) as (model & Hall & Hwf & Hsz & Hfind).
    destruct (add_data_find model pair.1 pair.2 Hwf ltac:(lia) Hpair)
      as (model' & Hadd & Hwf' & Hsz' & Hfind').
    exists model'. split; [|split; [done|split; [congruence|]]].
    + unfold add_all in *. rewrite fold_result_app, Hall. cbn.
      by rewrite Hadd.
    + intros context. rewrite Hfind', followers_snoc.
      destruct (markov_context_check_match pair.1 context) eqn:Hmatch.
      * rewrite Hfind, (followers_congr pairs _ _ Hmatch).
        assert (Htable : default [] (if followers pairs context is [] then None
                                     else Some (table_of (followers pairs context)))
                         = table_of (followers pairs context))
          by (by destruct (followers pairs context)).
        rewrite Htable. unfold table_of. rewrite foldl_app. cbn.
        by destruct (followers pairs context).
      * by rewrite Hfind, app_nil_r.
Qed.


Lemma node_find_no_match (node : list MarkovNode) (context : MarkovContext) :
  (forall cell, cell ∈ node ->
                markov_context_check_match (node_context cell) context = false) ->
  node_find node context = None.
Proof.
  induction node as [|cell next IH]; intros Hno; [done|]. cbn.
  rewrite (Hno cell) by constructor. apply IH.
  intros cell' Hin. apply Hno. by constructor.
Qed.

(** X1. [markov_model_get_next] on a model with its buckets reads the table
    of the first node, in the bucket of the context's hash, whose context
    matches: without such a node it returns NULL and does not call [rand()];
    with one it calls [rand()] once and returns what
    [markov_value_get_random] draws from that table. *)
Theorem get_next_table (model : MarkovModel) (context : MarkovContext)
    (calls : nat) :
  model_wf model -> 0 < model_size model ->
  markov_model_get_next char_signed rand (Some model) context calls
  = match model_find char_signed model context with
    | None => Ok (None, calls)
    | Some value =>
        word ← markov_value_get_random value (rand calls);
        Ok (Some word, S calls)
    end.
Proof. apply get_next_find. Qed.

(** X5. A model of size zero: [markov_context_get_hash(context) % model->size]
    is a division by zero, in [markov_model_add_data] and in
    [markov_model_get_next]. *)
Theorem zero_size_faults (model : MarkovModel) (context : MarkovContext)
    (word : string) (calls : nat) :
  model_size model = 0 ->
  markov_model_add_data char_signed (Some model) context word
  = Fault DivByZero /\
  markov_model_get_next char_signed rand (Some model) context calls
  = Fault DivByZero.
Proof.
  intros Hsize.
  unfold markov_model_add_data, markov_model_get_next, bucket_index.
  by rewrite Hsize.
Qed.

(** X2. A context that no node of the model matches has no successor:
    [markov_model_get_next] returns NULL, and [rand()] is not called. *)
Theorem get_next_never_seen (model : MarkovModel) (context : MarkovContext)
    (calls : nat) :
  model_wf model -> 0 < model_size model ->
  no_entry model context ->
  markov_model_get_next char_signed rand (Some model) context calls
  = Ok (None, calls).
Proof.
  intros Hwf Hpos Hno. rewrite get_next_find by done.
  destruct (bucket_index_in_range char_signed model context Hwf Hpos)
    as (index & bucket & Hindex & Hbucket).
  unfold model_find. rewrite Hindex, Hbucket. cbn.
  rewrite node_find_no_match; [done|].
  intros cell Hin. apply (Hno bucket); [|done]. by eapply list_elem_of_lookup_2.
Qed.

Lemma get_random_nonzero (value : list MarkovValue) (rnd : Z) :
  value_total_count value <> 0 ->
  exists word, markov_value_get_random value rnd = Ok word /\
               word ∈ (value_word <$> value).
Proof.
  intros Hne. unfold markov_value_get_random.
  destruct (Z.eqb_spec (value_total_count value) 0) as [?|_]; [done|].
  destruct (value_walk value _) as [word|] eqn:Hwalk.
  - exists word. split; [done|]. by eapply value_walk_elem.
  - destruct value as [|cell next]; [done|].
    exists (value_word cell). split; [done|]. constructor.
Qed.

(** X3. [markov_value_get_random] divides by the total of the counts: a
    total of zero (no table at all, or counts that wrap around to zero) is a
    division by zero in [rand() % total_count]; for any other total the
    function returns the word of a cell of the table, whatever [rand()]
    returns. *)
Theorem get_random_total_count (value : list MarkovValue) (rnd : Z) :
  (value_total_count value = 0 ->
   markov_value_get_random value rnd = Fault DivByZero) /\
  (value_total_count value <> 0 ->
   exists word, markov_value_get_random value rnd = Ok word /\
                word ∈ (value_word <$> value)) /\
  markov_value_get_random [] rnd = Fault DivByZero.
Proof.
  split; [|split; [|done]].
  - intros Hzero. unfold markov_value_get_random. by rewrite Hzero.
  - apply get_random_nonzero.
Qed.

(** X4. [markov_model_add_data] on a model with its buckets, for a context
    as the program builds them: it does not fault and the model keeps its
    size; the table of every context that matches the added one has gained
    the word
    (a first table is made when there was none); the table of every other
    context, in the same bucket or not, is as before, and so is what
    [markov_model_get_next] returns for it. *)
Theorem add_data_lookup (model : MarkovModel) (context : MarkovContext)
    (word : string) :
  model_wf model -> 0 < model_size model -> filled_suffix context ->
  exists model',
    markov_model_add_data char_signed (Some model) context word
      = Ok (Some model') /\
    model_wf model' /\
    model_size model' = model_size model /\
    (forall context',
        markov_context_check_match context context' = true ->
        model_find char_signed model' context'
        = Some (markov_value_add_word
                  (default [] (model_find char_signed model context')) word)) /\
    (forall context',
        markov_context_check_match context context' = false ->
        model_find char_signed model' context'
        = model_find char_signed model context') /\
    (forall context' calls,
        markov_context_check_match context context' = false ->
        markov_model_get_next char_signed rand (Some model') context' calls
        = markov_model_get_next char_signed rand (Some model) context' calls).
Proof.
  intros Hwf Hpos Hfs.
  destruct (add_data_find model context word Hwf Hpos Hfs)
    as (model' & Hadd & Hwf' & Hsize & Hfind).
  exists model'. repeat (split; [done|]). split; [|split].
  - intros context' Hmatch.
    by rewrite Hfind, Hmatch, (model_find_congr model _ _ Hmatch).
  - intros context' Hmatch. by rewrite Hfind, Hmatch.
  - intros context' calls Hmatch.
    rewrite !get_next_find by (done || lia). by rewrite Hfind, Hmatch.
Qed.

Lemma followers_length (pairs : list (MarkovContext * string))
    (context : MarkovContext) :
  (length (followers pairs context) <= length pairs)%nat.
Proof. unfold followers. rewrite length_fmap. apply length_filter. Qed.

Lemma table_of_random (words : list string) (rnd : Z) :
  words <> [] -> Z.of_nat (length words) < SIZE_MODULUS ->
  exists word, markov_value_get_random (table_of words) rnd = Ok word /\
               word ∈ words.
Proof.
  intros Hne Hlen.
  destruct (table_of_holds words Hlen) as (Hnd & Hsum & Hcount).
  assert (Htotal : value_total_count (table_of words) = Z.of_nat (length words))
    by (rewrite value_total_count_sum; [done | lia]).
  destruct (get_random_nonzero (table_of words) rnd) as (word & Hrandom & Hkey).
  { rewrite Htotal. destruct words; [done | cbn; lia]. }
  exists word. split; [done|].
  destruct (decide (word ∈ words)) as [|Hnot]; [done|]. exfalso.
  specialize (Hcount word). rewrite decide_False in Hcount by done.
  by apply table_count_None in Hcount.
Qed.


(** ** Windows *)

Lemma push_word_drop (context : MarkovContext) (word : string) :
  context_wf context ->
  markov_context_push_word (Some context) (Some word)
  = Ok {| previous_words := drop 1 (previous_words context ++ [Some word]) |}.
Proof. by intros (x & y & z & ->)%context_wf_inv. Qed.

Lemma push_words_drop (words : list string) (context : MarkovContext) :
  context_wf context ->
  push_words words context
  = Ok {| previous_words :=
            drop (length words)
                 (previous_words context ++ (Some <$> words)) |}.
Proof.
  revert context. induction words as [|word words IH]; intros context Hwf.
  - cbn. rewrite app_nil_r. by destruct context.
  - unfold push_words in *. cbn [fold_result].
    rewrite push_word_drop by done. cbn [mbind result_bind].
    rewrite IH.
    + cbn [previous_words length fmap list_fmap]. do 2 f_equal.
      destruct (context_wf_inv _ Hwf) as (x & y & z & ->). cbn.
      done.
    + destruct (context_wf_inv _ Hwf) as (x & y & z & ->). done.
Qed.


Lemma window_wf (previous : list string) : context_wf (window previous).
Proof.
  unfold context_wf, window. cbn [previous_words].
  rewrite length_drop, length_app, length_replicate, length_fmap. lia.
Qed.

Lemma window_nil : window [] = markov_context_new.
Proof. reflexivity. Qed.

Lemma window_push (previous : list string) (word : string) :
  markov_context_push_word (Some (window previous)) (Some word)
  = Ok (window (previous ++ [word])).
Proof.
  rewrite push_word_drop by apply window_wf. unfold window.
  cbn [previous_words]. do 2 f_equal.
  rewrite length_app, fmap_app. cbn [length fmap list_fmap].
  rewrite app_assoc, <- drop_drop.
  rewrite (drop_app_le _ [Some word] (length previous)); [done|].
  rewrite length_app, length_fmap. lia.
Qed.

Lemma window_reachable (previous : list string) : reachable (window previous).
Proof.
  induction previous as [|word previous IH] using rev_ind.
  - rewrite window_nil. constructor.
  - eapply reachable_push; [exact IH | apply window_push].
Qed.

Lemma window_filled_suffix (previous : list string) :
  filled_suffix (window previous).
Proof. apply reachable_shape, window_reachable. Qed.

Lemma window_reset (previous : list string) :
  markov_context_reset (Some (window previous)) = window [].
Proof.
  destruct (context_wf_inv _ (window_wf previous)) as (x & y & z & ->). done.
Qed.


(** ** Trainer *)

Arguments window : simpl never.
Arguments markov_context_push_word : simpl never.
Arguments markov_context_reset : simpl never.

Lemma add_all_app (pairs1 pairs2 : list (MarkovContext * string))
    (model model' : option MarkovModel) :
  add_all char_signed pairs1 model = Ok model' ->
  add_all char_signed (pairs1 ++ pairs2) model
  = add_all char_signed pairs2 model'.
Proof. intros H. unfold add_all in *. by rewrite fold_result_app, H. Qed.

Lemma load_tokens_transitions (words previous : list string)
    (model : MarkovModel) :
  model_wf model -> 0 < model_size model ->
  exists model',
    fold_result (load_token char_signed) words (Some model, window previous)
      = Ok (Some model', window (previous ++ words)) /\
    add_all char_signed (transitions previous words) (Some model)
      = Ok (Some model') /\
    model_wf model' /\ model_size model' = model_size model.
Proof.
  revert previous model.
  induction words as [|word words IH]; intros previous model Hwf Hpos.
  - exists model. rewrite app_nil_r. split; [done|]. split; [done|]. by split.
  - destruct (add_data_find model (window previous) word Hwf Hpos
                (window_filled_suffix previous))
      as (model1 & Hadd & Hwf1 & Hsize1 & _).
    destruct (IH (previous ++ [word]) model1 Hwf1 ltac:(lia))
      as (model' & Hload & Hall & Hwf' & Hsize').
    exists model'. rewrite <- app_assoc in Hload. cbn [app] in Hload.
    split; [|split; [|split; [done | congruence]]].
    + cbn [fold_result]. unfold load_token at 2. rewrite Hadd. cbn.
      rewrite window_push. cbn. exact Hload.
    + cbn [transitions]. unfold add_all in *. cbn [fold_result].
      cbn [fst snd]. rewrite Hadd. exact Hall.
Qed.

Lemma load_lines_transitions (lines : list string) (previous : list string)
    (model : MarkovModel) :
  model_wf model -> 0 < model_size model ->
  exists model',
    load_lines char_signed lines (Some model, window previous)
      = Ok (Some model', window (corpus_previous previous lines)) /\
    add_all char_signed (corpus_transitions previous lines) (Some model)
      = Ok (Some model') /\
    model_wf model' /\ model_size model' = model_size model.
Proof.
  revert previous model.
  induction lines as [|line lines IH]; intros previous model Hwf Hpos.
  - exists model. split; [done|]. split; [done|]. by split.
  - unfold load_lines in *. cbn [fold_result corpus_previous corpus_transitions].
    unfold load_line at 2, line_tokens.
    destruct (strtok_all is_delimiter line) as [|word rest] eqn:Htokens.
    + cbn. rewrite window_reset. by apply IH.
    + destruct (Ascii.eqb (first_char word) "-") eqn:Hskip; cbn [negb].
      * cbn. rewrite app_nil_r. by apply IH.
      * destruct (load_tokens_transitions (word :: rest) previous model Hwf Hpos)
          as (model1 & Hload & Hall & Hwf1 & Hsize1).
        destruct (IH (previous ++ word :: rest) model1 Hwf1 ltac:(lia))
          as (model' & Hlines & Hall' & Hwf' & Hsize').
        exists model'. split; [|split; [|split; [done | congruence]]].
        -- rewrite Hload. exact Hlines.
        -- by rewrite (add_all_app _ _ _ _ Hall).
Qed.

Lemma transitions_filled_suffix (previous words : list string) :
  Forall (fun pair => filled_suffix pair.1) (transitions previous words).
Proof.
  revert previous. induction words as [|word words IH]; intros previous;
    constructor; [apply window_filled_suffix | apply IH].
Qed.

Lemma corpus_transitions_filled_suffix (previous : list string)
    (lines : list string) :
  Forall (fun pair => filled_suffix pair.1) (corpus_transitions previous lines).
Proof.
  revert previous. induction lines as [|line lines IH]; intros previous;
    [constructor|]. cbn.
  destruct (strtok_all is_delimiter line); [apply IH|].
  apply Forall_app. split; [apply transitions_filled_suffix | apply IH].
Qed.

Lemma strtok_from_nil (delim : ascii -> bool) (s cur : string) :
  strtok_from delim cur s = [] <->
  cur = "" /\ forallb delim (list_ascii_of_string s) = true.
Proof.
  revert cur. induction s as [|ch s IH]; intros cur; cbn.
  - destruct (decide (cur = "")); [done|]. split; [done | by intros [? _]].
  - destruct (delim ch); cbn.
    + destruct (decide (cur = "")) as [->|Hne].
      * rewrite IH. tauto.
      * split; [done | by intros [? _]].
    + rewrite IH. split; [intros [H _]; by destruct cur | by intros [_ ?]].
Qed.


(** ** Trained models *)

Lemma add_all_next (pairs : list (MarkovContext * string)) (size : Z) :
  0 < size < SIZE_MODULUS ->
  Forall (fun pair => filled_suffix pair.1) pairs ->
  Z.of_nat (length pairs) < SIZE_MODULUS ->
  exists model,
    add_all char_signed pairs (Some (markov_model_new size)) = Ok (Some model) /\
    forall (context : MarkovContext) (calls : nat),
      (followers pairs context = [] /\
       markov_model_get_next char_signed rand (Some model) context calls
       = Ok (None, calls)) \/
      (exists word,
          word ∈ followers pairs context /\
          markov_model_get_next char_signed rand (Some model) context calls
          = Ok (Some word, S calls)).
Proof.
  intros Hsize Hfs Hlen.
  destruct (add_all_find pairs size Hsize Hfs)
    as (model & Hall & Hwf & Hsz & Hfind).
  exists model. split; [done|]. intros context calls.
  rewrite get_next_find by (done || lia). rewrite Hfind.
  destruct (followers pairs context) as [|w ws] eqn:Hfollow; [by left|].
  right.
  destruct (table_of_random (w :: ws) (rand calls)) as (word & Hrandom & Hin);
    [done| |].
  { pose proof (followers_length pairs context) as Hle.
    rewrite Hfollow in Hle. lia. }
  exists word. split; [done|]. by rewrite Hrandom.
Qed.

(** ** Tokens and buffers *)

Lemma length_append_char (s : string) (ch : ascii) :
  String.length (s +:+ String ch "") = S (String.length s).
Proof.
  induction s as [|c s IH]; [done|]. rewrite append_cons. cbn. by rewrite IH.
Qed.

Lemma list_ascii_append_char (s : string) (ch : ascii) :
  list_ascii_of_string (s +:+ String ch "") = list_ascii_of_string s ++ [ch].
Proof.
  induction s as [|c s IH]; [done|]. rewrite append_cons. cbn. by rewrite IH.
Qed.

Lemma append_char_nonempty (s : string) (ch : ascii) : s +:+ String ch "" <> "".
Proof. by destruct s. Qed.

Lemma strtok_from_tokens (delim : ascii -> bool) (s cur : string) :
  forallb (fun ch => negb (delim ch)) (list_ascii_of_string cur) = true ->
  Forall (token_of delim) (strtok_from delim cur s).
Proof.
  revert cur. induction s as [|ch s IH]; intros cur Hcur; cbn.
  - destruct (decide (cur = "")); by repeat constructor.
  - destruct (delim ch) eqn:Hch.
    + destruct (decide (cur = "")); [by apply IH|].
      constructor; [done | by apply IH].
    + apply IH. rewrite list_ascii_append_char, forallb_app, Hcur. cbn.
      by rewrite Hch.
Qed.

Lemma strtok_from_length (delim : ascii -> bool) (s cur : string) :
  (length (strtok_from delim cur s) <= String.length cur + String.length s)%nat.
Proof.
  revert cur. induction s as [|ch s IH]; intros cur; cbn.
  - destruct (decide (cur = "")); [cbn; lia|]. destruct cur; [done | cbn; lia].
  - destruct (delim ch).
    + destruct (decide (cur = "")).
      * specialize (IH ""). cbn in IH. lia.
      * specialize (IH ""). destruct cur; [done|]. cbn in *. lia.
    + specialize (IH (cur +:+ String ch "")).
      rewrite length_append_char in IH. lia.
Qed.

Lemma fgets_from_length (size : nat) (file buf : string) (room : nat) :
  sum_list_with String.length (fgets_from size buf room file)
  = (String.length buf + String.length file)%nat.
Proof.
  revert buf room. induction file as [|ch file IH]; intros buf room; cbn.
  - destruct (decide (buf = "")) as [->|]; cbn; lia.
  - destruct (_ || _); cbn.
    + rewrite IH, length_append_char. cbn. lia.
    + rewrite IH, length_append_char. lia.
Qed.

Lemma concat_empty_cons (x : string) (l : list string) :
  String.concat "" (x :: l) = x +:+ String.concat "" l.
Proof. destruct l; [by rewrite append_empty_r | done]. Qed.

Lemma fgets_from_buffers (size : nat) (file buf : string) (room : nat) :
  (1 <= room)%nat -> (String.length buf + room = size - 1)%nat ->
  String.concat "" (fgets_from size buf room file) = buf +:+ file /\
  Forall (fun line => line <> "" /\ (String.length line <= size - 1)%nat)
         (fgets_from size buf room file).
Proof.
  revert buf room. induction file as [|ch file IH]; intros buf room Hroom Hsize;
    cbn [fgets_from].
  - rewrite append_empty_r. destruct (decide (buf = "")) as [->|Hne]; [done|].
    split; [done|]. repeat constructor; [done | lia].
  - assert (Hnext : (buf +:+ String ch "") +:+ file = buf +:+ String ch file)
      by (by rewrite append_assoc).
    destruct (Ascii.eqb ch "010" || (room =? 1)%nat) eqn:Hfull.
    + destruct (IH "" (size - 1)%nat) as [Hconcat Hall]; [lia | cbn; lia |].
      rewrite concat_empty_cons, Hconcat. split; [done|].
      constructor; [|done]. split; [apply append_char_nonempty|].
      rewrite length_append_char. lia.
    + apply orb_false_iff in Hfull as [_ Hroom1%Nat.eqb_neq].
      destruct (IH (buf +:+ String ch "") (room - 1)%nat) as [Hconcat Hall];
        [lia | rewrite length_append_char; lia |].
      by rewrite Hconcat.
Qed.

Lemma transitions_length (previous words : list string) :
  length (transitions previous words) = length words.
Proof.
  revert previous. induction words as [|word words IH]; intros previous;
    [done|]. cbn. by rewrite IH.
Qed.

Lemma transitions_words (previous words : list string) :
  snd <$> transitions previous words = words.
Proof.
  revert previous. induction words as [|word words IH]; intros previous;
    [done|]. cbn. by rewrite IH.
Qed.

Lemma line_tokens_length (line : string) :
  (length (line_tokens line) <= String.length line)%nat.
Proof.
  unfold line_tokens. pose proof (strtok_from_length is_delimiter line "") as Hle.
  unfold strtok_all. destruct (strtok_from _ _ _) as [|word rest]; [cbn; lia|].
  destruct (Ascii.eqb _ _); cbn in *; lia.
Qed.

Lemma line_tokens_elem (line word : string) :
  word ∈ line_tokens line -> word ∈ strtok_all is_delimiter line.
Proof.
  unfold line_tokens. destruct (strtok_all _ _) as [|first rest]; [done|].
  destruct (Ascii.eqb _ _); [by intros ?%elem_of_nil | done].
Qed.

Lemma corpus_transitions_length (previous : list string) (lines : list string) :
  (length (corpus_transitions previous lines)
   <= sum_list_with String.length lines)%nat.
Proof.
  revert previous. induction lines as [|line lines IH]; intros previous;
    [done|]. cbn.
  destruct (strtok_all is_delimiter line) eqn:Htokens.
  - specialize (IH []). lia.
  - rewrite length_app, transitions_length.
    pose proof (line_tokens_length line). specialize (IH (previous ++ line_tokens line)).
    lia.
Qed.

Lemma corpus_transitions_words (previous : list string) (lines : list string)
    (pair : MarkovContext * string) :
  pair ∈ corpus_transitions previous lines ->
  exists line, line ∈ lines /\ pair.2 ∈ strtok_all is_delimiter line.
Proof.
  revert previous. induction lines as [|line lines IH]; intros previous; cbn.
  - by intros ?%elem_of_nil.
  - assert (Hrest : forall previous',
               pair ∈ corpus_transitions previous' lines ->
               exists line', line' ∈ line :: lines /\
                             pair.2 ∈ strtok_all is_delimiter line').
    { intros previous' (line' & Hin & Hword)%IH. exists line'.
      split; [by constructor | done]. }
    destruct (strtok_all is_delimiter line) eqn:Htokens; [apply Hrest|].
    intros [Hhere|Hthere]%elem_of_app; [|by eapply Hrest].
    exists line. split; [constructor|]. apply line_tokens_elem.
    rewrite <- (transitions_words previous (line_tokens line)).
    by apply list_elem_of_fmap_2.
Qed.

Lemma c_string_length (buffer : string) :
  (String.length (c_string buffer) <= String.length buffer)%nat.
Proof.
  induction buffer as [|ch buffer IH]; [done|]. cbn.
  destruct (Ascii.eqb ch "000"); cbn; lia.
Qed.

Lemma file_lines_length (contents : string) :
  (sum_list_with String.length (file_lines contents)
   <= String.length contents)%nat.
Proof.
  unfold file_lines, fgets_all.
  rewrite <- (Nat.add_0_l (String.length contents)).
  change 0%nat with (String.length "").
  rewrite <- (fgets_from_length LINE_BUFFER_SIZE contents ""
                                (LINE_BUFFER_SIZE - 1)).
  induction (fgets_from _ _ _ _) as [|line lines IH]; [done|]. cbn.
  pose proof (c_string_length line). lia.
Qed.

Lemma corpus_size (contents : string) :
  Z.of_nat (String.length contents) < SIZE_MODULUS ->
  Z.of_nat (length (corpus_transitions [] (file_lines contents)))
  < SIZE_MODULUS.
Proof.
  intros Hlen.
  pose proof (corpus_transitions_length [] (file_lines contents)) as Hle.
  pose proof (file_lines_length contents). lia.
Qed.

Lemma load_file_add_all (contents : string) :
  exists model,
    markov_model_load_file char_signed (Some contents) = Ok (Some model) /\
    add_all char_signed
            (corpus_transitions [] (file_lines contents))
            (Some (markov_model_new HASH_MAP_SIZE))
    = Ok (Some model).
Proof.
  destruct (load_lines_transitions (file_lines contents) []
              (markov_model_new HASH_MAP_SIZE))
    as (model & Hload & Hall & _); [by apply model_new_wf | done |].
  exists model. split; [|done]. unfold markov_model_load_file.
  rewrite <- window_nil, Hload. done.
Qed.

(** ** Trainer: a skipped line of the file *)

Lemma no_newline_cons (ch : ascii) (s : string) :
  no_newline (String ch s) = true ->
  Ascii.eqb ch "010" = false /\ no_newline s = true.
Proof.
  unfold no_newline. cbn. intros [Hch Hs]%andb_true_iff.
  by apply negb_true_iff in Hch.
Qed.

Lemma fgets_from_run (size : nat) (s rest buf : string) (room : nat) :
  no_newline s = true -> (String.length s < room)%nat ->
  fgets_from size buf room (s +:+ rest)
  = fgets_from size (buf +:+ s) (room - String.length s) rest.
Proof.
  revert buf room. induction s as [|ch s IH]; intros buf room Hs Hroom.
  - by rewrite append_nil_l, append_empty_r, Nat.sub_0_r.
  - apply no_newline_cons in Hs as [Hch Hs]. cbn [String.length] in Hroom.
    rewrite append_cons. cbn [fgets_from]. rewrite Hch.
    destruct (Nat.eqb_spec room 1) as [?|_]; [lia|]. cbn [orb].
    rewrite IH by (done || lia). rewrite append_assoc, append_cons, append_nil_l.
    f_equal. cbn [String.length]. lia.
Qed.

Lemma fgets_from_last (size : nat) (s buf : string) (room : nat) :
  no_newline s = true -> (String.length s <= room)%nat -> buf +:+ s <> "" ->
  fgets_from size buf room s = [buf +:+ s].
Proof.
  revert buf room. induction s as [|ch s IH]; intros buf room Hs Hroom Hne.
  - rewrite append_empty_r in *. cbn. by rewrite decide_False.
  - apply no_newline_cons in Hs as [Hch Hs]. cbn [String.length] in Hroom.
    cbn [fgets_from]. rewrite Hch.
    destruct (Nat.eqb_spec room 1) as [->|Hroom1]; cbn [orb].
    + destruct s; [done | cbn in Hroom; lia].
    + rewrite IH; [|done|lia|].
      * by rewrite append_assoc, append_cons, append_nil_l.
      * rewrite append_assoc, append_cons, append_nil_l. by destruct buf.
Qed.

Lemma fgets_from_app (size : nat) (before rest buf : string) (room : nat) :
  fgets_from size buf room ((before +:+ String "010" "") +:+ rest)
  = fgets_from size buf room (before +:+ String "010" "") ++ fgets_all size rest.
Proof.
  revert buf room. induction before as [|ch before IH]; intros buf room.
  - rewrite append_nil_l, append_cons, append_nil_l. cbn.
    by rewrite decide_True.
  - rewrite !append_cons. cbn [fgets_from].
    destruct (_ || _); by rewrite IH.
Qed.

Lemma fgets_all_app (size : nat) (before rest : string) :
  before = "" \/ (exists b, before = b +:+ String "010" "") ->
  fgets_all size (before +:+ rest)
  = fgets_all size before ++ fgets_all size rest.
Proof.
  intros [->|[b ->]]; [by rewrite append_nil_l|]. apply fgets_from_app.
Qed.

Lemma fgets_all_line (size : nat) (line rest : string) :
  no_newline line = true -> (String.length line < size - 1)%nat ->
  fgets_all size (line +:+ String "010" "" +:+ rest)
  = (line +:+ String "010" "") :: fgets_all size rest.
Proof.
  intros Hline Hlen. unfold fgets_all at 1.
  rewrite fgets_from_run by done. rewrite append_nil_l, append_cons, append_nil_l.
  reflexivity.
Qed.

Lemma file_lines_app (before rest : string) :
  before = "" \/ (exists b, before = b +:+ String "010" "") ->
  file_lines (before +:+ rest) = file_lines before ++ file_lines rest.
Proof.
  intros Hbefore. unfold file_lines. by rewrite fgets_all_app, fmap_app.
Qed.

Lemma file_lines_line (line ending after : string) :
  no_newline line = true ->
  (ending = String "010" "" /\ (String.length line < LINE_BUFFER_SIZE - 1)%nat) \/
  (ending = "" /\ after = "" /\ line <> "" /\
   (String.length line <= LINE_BUFFER_SIZE - 1)%nat) ->
  file_lines (line +:+ ending +:+ after)
  = c_string (line +:+ ending) :: file_lines after.
Proof.
  intros Hline [[-> Hlen]|(-> & -> & Hne & Hlen)]; unfold file_lines.
  - by rewrite fgets_all_line.
  - rewrite !append_empty_r. unfold fgets_all.
    rewrite fgets_from_last by (by rewrite ?append_nil_l).
    by rewrite append_nil_l.
Qed.

(** C9, as the code has it. A line of the file that [fgets] reads into one
    buffer (at most 1022 characters and its newline, or a last line of at most
    1023 characters without a newline), and whose first token begins with
    ['-']: the buffer leaves the model and the running context as they are, no
    word is added and the context is neither pushed nor reset; the loop over
    the file ends in the state in which it ends on the file without the line,
    so that a transition can span the line; and the model that
    [markov_model_load_file] returns is the model of the file without the
    line. *)
Theorem skipped_line_unchanged (before line ending after word : string)
    (rest : list string) :
  before = "" \/ (exists b, before = b +:+ String "010" "") ->
  no_newline line = true ->
  (ending = String "010" "" /\ (String.length line < LINE_BUFFER_SIZE - 1)%nat) \/
  (ending = "" /\ after = "" /\
   (String.length line <= LINE_BUFFER_SIZE - 1)%nat) ->
  strtok_all is_delimiter (c_string (line +:+ ending)) = word :: rest ->
  first_char word = "-"%char ->
  file_lines (before +:+ line +:+ ending +:+ after)
  = file_lines before ++ c_string (line +:+ ending) :: file_lines after /\
  (forall state : option MarkovModel * MarkovContext,
      load_line char_signed state (c_string (line +:+ ending)) = Ok state) /\
  (forall state : option MarkovModel * MarkovContext,
      load_lines char_signed (file_lines (before +:+ line +:+ ending +:+ after))
                 state
      = load_lines char_signed (file_lines (before +:+ after)) state) /\
  markov_model_load_file char_signed (Some (before +:+ line +:+ ending +:+ after))
  = markov_model_load_file char_signed (Some (before +:+ after)).
Proof.
  intros Hbefore Hline Hending Htokens Hfirst.
  assert (Hne : line <> "").
  { intros ->. destruct Hending as [[-> _]|(-> & _)]; by vm_compute in Htokens. }
  assert (Hlines : file_lines (before +:+ line +:+ ending +:+ after)
                   = file_lines before
                     ++ c_string (line +:+ ending) :: file_lines after).
  { rewrite file_lines_app by done. f_equal. apply file_lines_line; [done|].
    destruct Hending as [?|(? & ? & ?)]; [by left | by right]. }
  destruct (load_line_skipped char_signed _ _ _ Htokens Hfirst)
    as [Hskip Hspan].
  assert (Hloop : forall state,
             load_lines char_signed
                        (file_lines (before +:+ line +:+ ending +:+ after)) state
             = load_lines char_signed (file_lines (before +:+ after)) state).
  { intros state. by rewrite Hlines, Hspan, file_lines_app. }
  split; [done|]. split; [done|]. split; [done|].
  unfold markov_model_load_file. by rewrite Hloop.
Qed.

(** ** Generator: the shape of a quote *)

Arguments String.concat : simpl never.

Lemma push_word_null (context : option MarkovContext) :
  markov_context_push_word context None = Fault NullDeref.
Proof. by destruct context. Qed.

Lemma concat_cons (sep x y : string) (l : list string) :
  String.concat sep (x :: y :: l) = x +:+ sep +:+ String.concat sep (y :: l).
Proof. reflexivity. Qed.

Lemma concat_nonempty (sep x : string) (l : list string) :
  x <> "" -> String.concat sep (x :: l) <> "".
Proof.
  intros Hx. destruct l as [|y l]; [done|]. rewrite concat_cons.
  by destruct x.
Qed.

Lemma concat_snoc (sep x w : string) (l : list string) :
  String.concat sep ((x :: l) ++ [w])
  = (String.concat sep (x :: l) +:+ sep) +:+ w.
Proof.
  revert x. induction l as [|y l IH]; intros x.
  - cbn [app]. rewrite concat_cons. by rewrite append_assoc.
  - cbn [app]. rewrite !concat_cons. change (y :: l ++ [w]) with ((y :: l) ++ [w]).
    by rewrite IH, !append_assoc.
Qed.

Lemma add_word_concat (words : list string) (word : string) :
  Forall (fun w => w <> "") words ->
  add_word_to_quote (Some (String.concat " " words)) (Some word)
  = Some (String.concat " " (words ++ [word])).
Proof.
  intros Hne. unfold add_word_to_quote. destruct words as [|x l].
  - by rewrite decide_True.
  - apply Forall_cons in Hne as [Hx _].
    rewrite decide_False by (by apply concat_nonempty).
    by rewrite concat_snoc.
Qed.

Lemma generate_loop_shape (R : MarkovContext -> string -> Prop)
    (model : MarkovModel) :
  (forall context calls word calls',
      markov_model_get_next char_signed rand (Some model) context calls
        = Ok (Some word, calls') ->
      R context word /\ word <> "") ->
  forall (iterations : nat) (previous words : list string)
         (calls : nat) (quote : option string),
    Forall (fun w => w <> "") words ->
    generate_quote_loop char_signed rand iterations (Some model)
                        (window previous)
                        (Some (String.concat " " words)) calls = Ok quote ->
    exists more : list string,
      quote = Some (String.concat " " (words ++ more)) /\
      (forall (i : nat) (word : string),
          more !! i = Some word ->
          R (window (previous ++ take i more)) word) /\
      (iterations <> 0%nat -> more <> []) /\
      ((length more = iterations /\
        Forall (fun w => check_end_condition w = false) more) \/
       (exists (before : list string) (final : string),
           more = before ++ [final] /\
           (length more <= iterations)%nat /\
           Forall (fun w => check_end_condition w = false) before /\
           check_end_condition final = true)).
Proof.
  intros Hnext. induction iterations as [|iterations IH];
    intros previous words calls quote Hwords.
  - cbn. intros [= <-]. exists []. rewrite app_nil_r.
    split; [done|]. split; [by intros i word ?|]. split; [done|]. by left.
  - cbn [generate_quote_loop].
    destruct (markov_model_get_next _ _ _ _ _) as [[[word|] calls']|] eqn:Hword;
      cbn; [| |done].
    2:{ by rewrite (push_word_null (Some (window previous))). }
    destruct (Hnext _ _ _ _ Hword) as [HR Hne].
    rewrite window_push. cbn.
    rewrite (add_word_concat words word Hwords).
    destruct (check_end_condition word) eqn:Hend.
    + intros [= <-]. exists [word]. split; [done|]. split.
      { intros [|i] w; [|done]. intros [= <-]. by rewrite app_nil_r. }
      split; [done|]. right. exists [], word.
      split; [done|]. split; [cbn; lia|]. by split.
    + intros Hloop. apply IH in Hloop as (more & -> & HRs & _ & Hshape).
      2:{ apply Forall_app. split; [done | by constructor]. }
      exists (word :: more). rewrite <- app_assoc. split; [done|]. split.
      { intros [|i] w.
        - intros [= <-]. by rewrite app_nil_r.
        - intros Hw%HRs. by rewrite <- app_assoc in Hw. }
      split; [done|].
      destruct Hshape as [[Hlen Hnoend]|(before & final & -> & Hlen & Hnoend & Hend')].
      * left. split; [cbn; lia | by constructor].
      * right. exists (word :: before), final. split; [done|].
        split; [cbn in *; lia|]. split; [by constructor | done].
Qed.

Lemma generate_shape (R : MarkovContext -> string -> Prop) (model : MarkovModel)
    (calls : nat) (quote : option string) :
  (forall context calls word calls',
      markov_model_get_next char_signed rand (Some model) context calls
        = Ok (Some word, calls') ->
      R context word /\ word <> "") ->
  markov_model_generate_quote char_signed rand (Some model) calls = Ok quote ->
  exists words : list string,
    quote = Some (String.concat " " words) /\
    words <> [] /\
    (forall (i : nat) (word : string),
        words !! i = Some word -> R (window (take i words)) word) /\
    quote_ending words.
Proof.
  intros Hnext Hquote. unfold markov_model_generate_quote in Hquote.
  rewrite <- window_nil in Hquote.
  apply (generate_loop_shape R model Hnext _ [] [] _ _ (Forall_nil_2 _)) in Hquote
    as (words & -> & HR & Hne & Hshape).
  exists words. split; [done|]. split; [by apply Hne|]. split; [exact HR|].
  change (Z.to_nat (MAX_QUOTE_LENGTH + 1 - 0)) with 51%nat in Hshape.
  unfold quote_ending, MAX_QUOTE_LENGTH.
  destruct Hshape as [[Hlen Hnoend]|(before & final & -> & Hlen & Hnoend & Hend)].
  - left. split; [lia | done].
  - right. exists before, final. split; [done|]. split; [lia|]. by split.
Qed.

Lemma generate_loop_fault (model : MarkovModel) :
  (forall context calls,
      exists next,
        markov_model_get_next char_signed rand (Some model) context calls
        = Ok next) ->
  forall (iterations : nat) (previous : list string) (quote : option string)
         (calls : nat) (f : fault),
    generate_quote_loop char_signed rand iterations (Some model)
                        (window previous) quote calls = Fault f ->
    f = NullDeref.
Proof.
  intros Hnext. induction iterations as [|iterations IH];
    intros previous quote calls f; [done|].
  cbn [generate_quote_loop].
  destruct (Hnext (window previous) calls) as [[word calls'] ->]. cbn.
  destruct word as [word|].
  - rewrite window_push. cbn. destruct (check_end_condition word); [done|].
    apply IH.
  - rewrite push_word_null. cbn. by intros [= <-].
Qed.


(** ** Theorems *)

(** X8. Training from a new model. After [markov_model_add_data] for the
    pairs of a list, in order, the model holds for every context the table
    that [markov_value_add_word] builds from the words added under a matching
    context, in the order they were added, and no table for a context under
    which nothing was added: contexts that share a bucket are kept apart. *)
Theorem trained_tables (pairs : list (MarkovContext * string)) (size : Z) :
  0 < size < SIZE_MODULUS ->
  Forall (fun pair => filled_suffix pair.1) pairs ->
  exists model,
    add_all char_signed pairs (Some (markov_model_new size)) = Ok (Some model) /\
    model_wf model /\ model_size model = size /\
    forall context,
      model_find char_signed model context
      = if followers pairs context is [] then None
        else Some (table_of (followers pairs context)).
Proof. apply add_all_find. Qed.

(** X9. Prediction from a trained model. For fewer than [2^64] pairs,
    [markov_model_get_next] never faults: it returns NULL without calling
    [rand()] for a context under which nothing was added, and otherwise, after
    one call of [rand()], one of the words added under a matching context. *)
Theorem trained_prediction (pairs : list (MarkovContext * string)) (size : Z) :
  0 < size < SIZE_MODULUS ->
  Forall (fun pair => filled_suffix pair.1) pairs ->
  Z.of_nat (length pairs) < SIZE_MODULUS ->
  exists model,
    add_all char_signed pairs (Some (markov_model_new size)) = Ok (Some model) /\
    forall (context : MarkovContext) (calls : nat),
      (followers pairs context = [] /\
       markov_model_get_next char_signed rand (Some model) context calls
       = Ok (None, calls)) \/
      (exists word,
          word ∈ followers pairs context /\
          markov_model_get_next char_signed rand (Some model) context calls
          = Ok (Some word, S calls)).
Proof. apply add_all_next. Qed.

(** X7. A sequence of [markov_context_push_word] keeps the last
    [MARKOV_CONTEXT_SIZE] slots of the window followed by the words pushed;
    from a new context it gives the window of the words, and once
    [MARKOV_CONTEXT_SIZE] words are pushed nothing of the first context is
    left. *)
Theorem push_words_window (words : list string) (context : MarkovContext) :
  context_wf context ->
  push_words words context
  = Ok {| previous_words :=
            drop (length words) (previous_words context ++ (Some <$> words)) |} /\
  push_words words markov_context_new = Ok (window words) /\
  ((MARKOV_CONTEXT_SIZE <= length words)%nat ->
   push_words words context = Ok (window words)).
Proof.
  intros Hwf. split; [by apply push_words_drop|]. split.
  - by rewrite push_words_drop.
  - intros Hlen. rewrite push_words_drop by done. unfold window.
    do 2 f_equal. unfold context_wf in Hwf.
    rewrite !drop_app_ge by (rewrite ?length_replicate; lia).
    by rewrite length_replicate, Hwf.
Qed.

(** X10. The body of the [fgets] loop for a line with tokens whose first
    token does not start with ['-']: every token is added under the window of
    the tokens before it, those of the lines before included, since the context
    is not reset at the end of a line; the context is then the window of all
    these tokens. *)
Theorem load_line_trains (line : string) (previous : list string)
    (model : MarkovModel) :
  model_wf model -> 0 < model_size model ->
  strtok_all is_delimiter line <> [] ->
  Ascii.eqb (first_char (hd "" (strtok_all is_delimiter line))) "-" = false ->
  exists model',
    load_line char_signed (Some model, window previous) line
    = Ok (Some model', window (previous ++ strtok_all is_delimiter line)) /\
    add_all char_signed (transitions previous (strtok_all is_delimiter line))
            (Some model)
    = Ok (Some model') /\
    model_wf model' /\ model_size model' = model_size model.
Proof.
  intros Hwf Hpos Htokens Hfirst. unfold load_line.
  destruct (strtok_all is_delimiter line) as [|word rest]; [done|].
  cbn [hd] in Hfirst. rewrite Hfirst. cbn [negb].
  by apply load_tokens_transitions.
Qed.

(** X11. The body of the [fgets] loop for a line that holds delimiters only
    (a blank line): the model is kept and the context is reset, so that the
    next word is trained under the new context. *)
Theorem load_line_blank (line : string) (model : option MarkovModel)
    (context : MarkovContext) :
  context_wf context ->
  forallb is_delimiter (list_ascii_of_string line) = true ->
  load_line char_signed (model, context) line = Ok (model, markov_context_new).
Proof.
  intros Hwf Hblank. unfold load_line, strtok_all.
  assert (strtok_from is_delimiter "" line = []) as ->
    by (by apply strtok_from_nil).
  by destruct (context_wf_inv _ Hwf) as (x & y & z & ->).
Qed.

(** X13. [markov_model_load_file] on a file that opens returns, for any
    contents, a model of [HASH_MAP_SIZE] buckets; the table that it holds for a
    context is the table of the words that follow a matching window in the
    corpus, read buffer by buffer, each buffer as the C string that [strtok]
    sees: its characters before the first NUL. *)
Theorem load_file_tables (contents : string) :
  exists model,
    markov_model_load_file char_signed (Some contents) = Ok (Some model) /\
    model_wf model /\ model_size model = HASH_MAP_SIZE /\
    forall context,
      model_find char_signed model context
      = if followers (corpus_transitions
                        [] (file_lines contents)) context
           is []
        then None
        else Some (table_of
                     (followers (corpus_transitions
                                   [] (file_lines contents))
                                context)).
Proof.
  destruct (load_file_add_all contents) as (model & Hload & Hall).
  destruct (add_all_find
              (corpus_transitions [] (file_lines contents))
              HASH_MAP_SIZE)
    as (model' & Hall' & Hwf & Hsize & Hfind);
    [done | apply corpus_transitions_filled_suffix |].
  assert (model' = model) as -> by congruence.
  by exists model.
Qed.

(** X14. A quote that [markov_model_generate_quote] returns, from a model
    that stores no empty word: at least one word, the words joined by single
    spaces, each a word of the model; either [MAX_QUOTE_LENGTH + 1] words
    without a terminator, or at most that many, the last one being the first
    with a terminator. *)
Theorem generated_quote_shape (model : MarkovModel) (calls : nat)
    (quote : option string) :
  "" ∉ model_words model ->
  markov_model_generate_quote char_signed rand (Some model) calls = Ok quote ->
  exists words : list string,
    quote = Some (String.concat " " words) /\
    words <> [] /\
    Forall (fun word => word ∈ model_words model) words /\
    quote_ending words.
Proof.
  intros Hwords Hquote.
  apply (generate_shape (fun _ word => word ∈ model_words model)) in Hquote
    as (words & -> & Hne & Hin & Hend).
  - exists words. split; [done|]. split; [done|]. split; [|done].
    apply Forall_lookup. intros i word Hi. by apply (Hin i).
  - intros context calls0 word calls' Hnext.
    apply get_next_elem in Hnext. split; [done|]. by intros ->.
Qed.

(** X15. [main] on a file that opens (shorter than [2^64] characters):
    either the run ends in the NULL dereference of [strdup], or the quote is
    made of tokens joined by single spaces, each a token of the C string of a
    buffer of the file (the characters of the buffer before its first NUL) and
    a word that follows, somewhere in the corpus, the window of the words
    printed before it; the quote ends as in X14. No other fault occurs. *)
Theorem main_quote (contents : string) :
  Z.of_nat (String.length contents) < SIZE_MODULUS ->
  main char_signed rand (Some contents) = Fault NullDeref \/
  exists words : list string,
    main char_signed rand (Some contents)
    = Ok (Some (String.concat " " words)) /\
    words <> [] /\
    (forall (i : nat) (word : string),
        words !! i = Some word ->
        word ∈ followers (corpus_transitions
                            [] (file_lines contents))
                         (window (take i words)) /\
        token_of is_delimiter word /\
        exists line, line ∈ file_lines contents /\
                     word ∈ strtok_all is_delimiter line) /\
    quote_ending words.
Proof.
  intros Hlen. set (pairs := corpus_transitions _ _).
  destruct (load_file_add_all contents) as (model & Hload & Hall).
  destruct (add_all_next pairs HASH_MAP_SIZE)
    as (model' & Hall' & Hnext);
    [done | apply corpus_transitions_filled_suffix | by apply corpus_size |].
  assert (model' = model) as -> by (subst pairs; congruence).
  unfold main. rewrite Hload. cbn [mbind result_bind].
  destruct (markov_model_generate_quote _ _ _ _) as [quote|f] eqn:Hquote.
  - right.
    apply (generate_shape
             (fun context word =>
                word ∈ followers pairs context /\
                token_of is_delimiter word /\
                exists line, line ∈ file_lines contents /\
                             word ∈ strtok_all is_delimiter line)) in Hquote
      as (words & -> & Hne & Hin & Hend).
    { by exists words. }
    intros context calls word calls' Hword.
    destruct (Hnext context calls) as [[_ Hnone]|(word' & Hin & Hsome)];
      [congruence|].
    assert (word' = word) as -> by congruence.
    assert (Htoken : exists line,
               line ∈ file_lines contents /\
               word ∈ strtok_all is_delimiter line).
    { unfold followers in Hin.
      apply list_elem_of_fmap in Hin as (pair & -> & Hpair).
      apply list_elem_of_filter in Hpair as [_ Hpair].
      by apply corpus_transitions_words in Hpair. }
    destruct Htoken as (line & Hline & Htoken).
    assert (Hshape : token_of is_delimiter word).
    { pose proof (strtok_from_tokens is_delimiter line "" eq_refl) as Hall1.
      rewrite Forall_forall in Hall1. by apply Hall1. }
    split; [|by destruct Hshape]. split; [done|]. split; [done|]. by exists line.
  - left. f_equal. unfold markov_model_generate_quote in Hquote.
    rewrite <- window_nil in Hquote.
    apply (generate_loop_fault model) in Hquote; [done|].
    intros context calls.
    destruct (Hnext context calls) as [[_ ->]|(word & _ & ->)]; by eexists.
Qed.

(** X16. A file that cannot be opened: [markov_model_load_file] returns
    NULL, which [markov_model_generate_quote] dereferences in
    [markov_model_get_next]; [main] does not test the model. *)
Theorem generate_null_model (calls : nat) :
  markov_model_load_file char_signed None = Ok None /\
  markov_model_generate_quote char_signed rand None calls = Fault NullDeref /\
  main char_signed rand None = Fault NullDeref.
Proof. done. Qed.

(** X6. [markov_context_copy] keeps the words of a context and their
    order, not their slots: the copy is the window of the words of the
    original, with its unfilled slots first. *)
Theorem copy_window (context : MarkovContext) :
  context_wf context ->
  markov_context_copy (Some context)
  = Ok (Some (window (omap id (previous_words context)))).
Proof.
  intros (x & y & z & ->)%context_wf_inv.
  by destruct x, y, z.
Qed.

(** X12. The buffers of the [fgets] loop, for [char line[1024]]: put end
    to end they are the file; none is empty and none has more than 1023
    characters, so a longer line is read in several buffers. *)
Theorem fgets_all_buffers (file : string) :
  String.concat "" (fgets_all LINE_BUFFER_SIZE file) = file /\
  Forall (fun line =>
            line <> "" /\ (String.length line < LINE_BUFFER_SIZE)%nat)
         (fgets_all LINE_BUFFER_SIZE file).
Proof.
  destruct (fgets_from_buffers LINE_BUFFER_SIZE file "" (LINE_BUFFER_SIZE - 1))
    as [Hconcat Hall]; [cbn; lia..|].
  split; [done|]. eapply Forall_impl; [exact Hall|].
  intros line [Hne Hlen]. split; [done|]. unfold LINE_BUFFER_SIZE in *. lia.
Qed.

End ModelProperties.

(** * Freeing and comparing contexts in memory *)

Section MemoryProperties.

Lemma free_body (h : Mem.heap) (c : Mem.addr) (slots : list (option Mem.addr))
    (i : nat) (p : option Mem.addr) :
  Mem.cell h c (Mem.Context slots) -> slots !! i = Some p ->
  (forall a : Mem.addr, p = Some a -> a <> c /\ exists b, Mem.cell h a b) ->
  exists h' : Mem.heap,
    (p ← Mem.load_word c i; if p is Some _ then Mem.free p else mret ()) h
    = Ok ((), h') /\
    Mem.cell h' c (Mem.Context slots) /\
    length h' = length h /\
    (forall a : Mem.addr, p = Some a -> h' !! a = Some None) /\
    forall x : Mem.addr, p <> Some x -> h' !! x = h !! x.
Proof.
  intros Hc Hi Hlive.
  rewrite (bind_ok _ _ _ _ _ (load_word_cell _ _ _ _ _ Hc Hi)).
  destruct p as [a|].
  - destruct (Hlive a eq_refl) as [Hne [b Ha]].
    rewrite (free_cell _ _ _ Ha). eexists. split; [reflexivity|].
    split; [by apply cell_insert_ne|]. split; [by rewrite length_insert|].
    split.
    + intros ? [= <-]. apply list_lookup_insert_eq. by eapply cell_lt.
    + intros x Hx. rewrite list_lookup_insert_ne by congruence. done.
  - exists h. split; [done|]. split; [done|]. split; [done|]. by split.
Qed.

(** X21. [markov_context_free] on a context that owns its words: the
    structure and each of its words are freed, every other block is as before
    and the heap has no new block; a second call on the same pointer reads
    freed memory. *)
Theorem mem_free_spec (h : Mem.heap) (c : Mem.addr)
    (slots : list (option Mem.addr)) (context : MarkovContext) :
  Mem.cell h c (Mem.Context slots) ->
  Forall2 (fun p x => Mem.view_word h p = Some x) slots (previous_words context) ->
  (forall (i j : nat) (a : Mem.addr),
      slots !! i = Some (Some a) -> slots !! j = Some (Some a) -> i = j) ->
  context_wf context ->
  exists h' : Mem.heap,
    Mem.markov_context_free (Some c) h = Ok ((), h') /\
    length h' = length h /\
    h' !! c = Some None /\
    (forall a : Mem.addr, Some a ∈ slots -> h' !! a = Some None) /\
    (forall x : Mem.addr, x <> c -> Some x ∉ slots -> h' !! x = h !! x) /\
    Mem.markov_context_free (Some c) h' = Fault InvalidPointer.
Proof.
  intros Hc Hview Hinj Hwf.
  destruct (context_wf_inv _ Hwf) as (x0 & x1 & x2 & ->).
  cbn [previous_words] in Hview.
  destruct slots as [|p0 [|p1 [|p2 [|? ?]]]];
    try (by apply Forall2_length in Hview).
  assert (Hlive : forall (i : nat) (x : Mem.addr),
             [p0; p1; p2] !! i = Some (Some x) ->
             x <> c /\ exists b, Mem.cell h x b).
  { intros i x Hi.
    destruct (Forall2_lookup_l _ _ _ _ _ Hview Hi) as (w & _ & Hw).
    apply view_word_Some in Hw as (sx & _ & Hsx).
    split; [exact (cell_kind _ _ _ _ _ Hc Hsx) | by eexists]. }
  destruct (free_body h c [p0; p1; p2] 0 p0 Hc eq_refl)
    as (h1 & Hrun1 & Hc1 & Hlen1 & Hdead1 & Hkeep1).
  { intros a ->. by apply (Hlive 0%nat). }
  destruct (free_body h1 c [p0; p1; p2] 1 p1 Hc1 eq_refl)
    as (h2 & Hrun2 & Hc2 & Hlen2 & Hdead2 & Hkeep2).
  { intros a ->. destruct (Hlive 1%nat a eq_refl) as [Hne [b Hb]].
    split; [done|]. exists b. unfold Mem.cell. rewrite Hkeep1; [done|].
    intros ->. by specialize (Hinj 0%nat 1%nat a eq_refl eq_refl). }
  destruct (free_body h2 c [p0; p1; p2] 2 p2 Hc2 eq_refl)
    as (h3 & Hrun3 & Hc3 & Hlen3 & Hdead3 & Hkeep3).
  { intros a ->. destruct (Hlive 2%nat a eq_refl) as [Hne [b Hb]].
    split; [done|]. exists b. unfold Mem.cell.
    rewrite Hkeep2, Hkeep1; [done| |].
    - intros ->. by specialize (Hinj 0%nat 2%nat a eq_refl eq_refl).
    - intros ->. by specialize (Hinj 1%nat 2%nat a eq_refl eq_refl). }
  pose proof (cell_lt _ _ _ Hc3) as Hlt.
  exists (<[c := None]> h3). split; [|split; [|split; [|split; [|split]]]].
  - unfold Mem.markov_context_free.
    change MARKOV_CONTEXT_SIZE with 3%nat. cbn [Mem.for_loop].
    rewrite bind_bind, (bind_ok _ _ _ _ _ Hrun1). cbn beta.
    rewrite bind_bind, (bind_ok _ _ _ _ _ Hrun2). cbn beta.
    rewrite bind_bind, (bind_ok _ _ _ _ _ Hrun3). cbn beta.
    rewrite bind_ret. by apply free_cell in Hc3.
  - rewrite length_insert. lia.
  - by apply list_lookup_insert_eq.
  - intros a Ha.
    assert (Hac : a <> c).
    { apply list_elem_of_lookup_1 in Ha as [i Hi]. by apply (Hlive i). }
    rewrite list_lookup_insert_ne by done.
    rewrite !elem_of_cons in Ha. destruct Ha as [Ha|[Ha|[Ha|Ha]]].
    + subst p0. rewrite Hkeep3, Hkeep2; [by apply Hdead1| |].
      * intros ->. by specialize (Hinj 0%nat 1%nat a eq_refl eq_refl).
      * intros ->. by specialize (Hinj 0%nat 2%nat a eq_refl eq_refl).
    + subst p1. rewrite Hkeep3; [by apply Hdead2|].
      intros ->. by specialize (Hinj 1%nat 2%nat a eq_refl eq_refl).
    + subst p2. by apply Hdead3.
    + by apply elem_of_nil in Ha.
  - intros x Hxc Hx. rewrite !not_elem_of_cons in Hx.
    destruct Hx as (Hx0 & Hx1 & Hx2 & _).
    rewrite list_lookup_insert_ne by done.
    rewrite Hkeep3, Hkeep2, Hkeep1; done || congruence.
  - unfold Mem.markov_context_free.
    change MARKOV_CONTEXT_SIZE with 3%nat. cbn [Mem.for_loop].
    unfold mbind at 1, Mem.M_bind. unfold mbind at 1, Mem.M_bind.
    unfold mbind at 1, Mem.M_bind. unfold Mem.load_word at 1.
    by rewrite list_lookup_insert_eq.
Qed.

(** X20. [markov_context_check_match] on two pointers to contexts returns
    what the comparison of the contexts they hold returns, and leaves the heap
    as it is. *)
Theorem mem_check_match_refines (h : Mem.heap) (a b : Mem.addr)
    (ca cb : MarkovContext) :
  Mem.view h a = Some ca -> Mem.view h b = Some cb ->
  context_wf ca -> context_wf cb ->
  Mem.markov_context_check_match a b h
  = Ok (markov_context_check_match ca cb, h).
Proof. apply mem_check_match_view. Qed.

End MemoryProperties.

(** * Instances *)

(** The table of the words x, y, x. *)
Lemma table_accumulation_witness :
  Z.of_nat (length ["x"; "y"; "x"]) < SIZE_MODULUS /\
  table_count (table_of ["x"; "y"; "x"]) "x" = Some 2 /\
  value_total_count (table_of ["x"; "y"; "x"]) = 3.
Proof.
  assert (Hlen : Z.of_nat (length ["x"; "y"; "x"]) < SIZE_MODULUS) by reflexivity.
  destruct (table_accumulation ["x"; "y"; "x"] Hlen) as (_ & Hcount & _ & _ & Htotal).
  split; [exact Hlen|]. split; [exact (Hcount "x") | exact Htotal].
Defined.

(** The draw 4 in the table x:1, y:9 falls in the range of y. *)
Lemma sample_weighted_witness :
  markov_value_get_random
    [ {| value_word := "x"; value_count := 1 |};
      {| value_word := "y"; value_count := 9 |} ] 4
  = Ok "y".
Proof.
  destruct (sample_weighted
              [ {| value_word := "x"; value_count := 1 |};
                {| value_word := "y"; value_count := 9 |} ] 4)
    as (_ & i & cell & Hi & Hrange & _ & _ & _ & Hrandom & _).
  - discriminate.
  - repeat constructor; cbn; lia.
  - reflexivity.
  - vm_compute. split; [discriminate | reflexivity].
  - destruct i as [|[|i]]; cbn in Hi; try discriminate;
      injection Hi as <-; [|exact Hrandom].
    exfalso. vm_compute in Hrange. destruct Hrange as [_ Hlt]. discriminate Hlt.
Defined.

(** A window of words of letters, on a platform where plain [char] is
    signed. *)
Lemma fingerprint_consistent_witness :
  markov_context_get_hash
    true {| previous_words := [None; Some "you"; Some "are"] |}
  = djb2_reference {| previous_words := [None; Some "you"; Some "are"] |}.
Proof.
  destruct (fingerprint_consistent true) as (_ & _ & Hreference & _).
  apply Hreference; [reflexivity | right; reflexivity].
Defined.

(** C6, as stated, fails where plain [char] is signed, for a word with a byte
    from 128 on: the code adds the byte less 256. The word is e with an acute
    accent in UTF-8, the bytes 195 and 169. *)
Lemma fingerprint_signed_char_differs :
  context_wf
    {| previous_words := [None; None; Some (String "195" (String "169" ""))] |} /\
  markov_context_get_hash
    true {| previous_words := [None; None; Some (String "195" (String "169" ""))] |}
  <> djb2_reference
       {| previous_words := [None; None; Some (String "195" (String "169" ""))] |}.
Proof.
  split; [reflexivity|]. intros H. vm_compute in H. discriminate H.
Defined.

(** The window after two pushes. *)
Lemma reachable_filled_suffix_witness :
  reachable {| previous_words := [None; Some "a"; Some "b"] |} /\
  is_Some (word_at {| previous_words := [None; Some "a"; Some "b"] |} 2).
Proof.
  assert (Hr : reachable {| previous_words := [None; Some "a"; Some "b"] |}).
  { apply (reachable_push {| previous_words := [None; None; Some "a"] |} "b");
      [|reflexivity].
    by apply (reachable_push_null "a"). }
  split; [exact Hr|].
  apply (reachable_filled_suffix _ 1 2 Hr).
  - unfold MARKOV_CONTEXT_SIZE. lia.
  - by exists "a".
Defined.

(** A skipped line between two lines of text. *)
Lemma skipped_line_unchanged_witness :
  file_lines ("a b" +:+ String "010" "" +:+ "-- Mark Twain" +:+ String "010" ""
              +:+ "c d" +:+ String "010" "")
  = ["a b" +:+ String "010" ""; "-- Mark Twain" +:+ String "010" "";
     "c d" +:+ String "010" ""] /\
  markov_model_load_file
    true (Some ("a b" +:+ String "010" "" +:+ "-- Mark Twain" +:+ String "010" ""
                +:+ "c d" +:+ String "010" ""))
  = markov_model_load_file
      true (Some ("a b" +:+ String "010" "" +:+ "c d" +:+ String "010" "")).
Proof.
  destruct (skipped_line_unchanged
              true ("a b" +:+ String "010" "") "-- Mark Twain" (String "010" "")
              ("c d" +:+ String "010" "") "--" ["Mark"; "Twain"])
    as (Hlines & _ & _ & Hfile).
  - right. by exists "a b".
  - reflexivity.
  - left. split; [reflexivity|]. cbn. lia.
  - reflexivity.
  - reflexivity.
  - split; [exact Hlines | exact Hfile].
Defined.

(** C9, as stated, fails for a line longer than the buffer: the first token
    of the line begins with a dash, but only the first 1023 characters are
    tested, and the rest of the line is trained as a line of its own. *)
Lemma skipped_long_line_trained :
  strtok_all is_delimiter long_skipped_line = ["-"; "b"] /\
  first_char "-" = "-"%char /\
  load_lines true (file_lines (long_skipped_line +:+ String "010" ""))
             (Some (markov_model_new HASH_MAP_SIZE), markov_context_new)
  <> Ok (Some (markov_model_new HASH_MAP_SIZE), markov_context_new) /\
  markov_model_load_file true (Some (long_skipped_line +:+ String "010" ""))
  <> markov_model_load_file true (Some "").
Proof.
  split; [vm_compute; reflexivity|]. split; [reflexivity|].
  split; intros H; vm_compute in H; discriminate H.
Defined.

(** A first word added to an empty model. *)
Lemma model_round_trip_witness :
  exists model',
    markov_model_add_data true (Some (markov_model_new HASH_MAP_SIZE))
                          markov_context_new "hello"
    = Ok (Some model') /\
    markov_model_get_next true (fun _ => 7) (Some model') markov_context_new 0
    = Ok (Some "hello", 1%nat).
Proof.
  apply (model_round_trip true (fun _ => 7) (markov_model_new HASH_MAP_SIZE)
                          markov_context_new "hello" 0).
  - split; [split; [discriminate | reflexivity] | reflexivity].
  - reflexivity.
  - by apply (filled_suffix_slots None None None).
  - intros bucket node Hbucket Hnode.
    apply elem_of_replicate in Hbucket as [-> _]. by apply elem_of_nil in Hnode.
Defined.

(** C3, as stated, fails for a context with a filled slot before an unfilled
    one: the model stores the copy, in which the word has moved to the last
    slot, and the context is not found again. *)
Lemma model_round_trip_gap_context :
  no_entry (markov_model_new HASH_MAP_SIZE)
           {| previous_words := [Some "a"; None; None] |} /\
  (model' ← markov_model_add_data
              true (Some (markov_model_new HASH_MAP_SIZE))
              {| previous_words := [Some "a"; None; None] |} "hello";
   markov_model_get_next true (fun _ => 7) model'
                         {| previous_words := [Some "a"; None; None] |} 0)
  = Ok (None, 0%nat).
Proof.
  split.
  - intros bucket node Hbucket Hnode.
    apply elem_of_replicate in Hbucket as [-> _]. by apply elem_of_nil in Hnode.
  - vm_compute. reflexivity.
Defined.

(** A context in memory with the words a and b in its last two slots. *)
Lemma copy_independent_equal_witness :
  exists (c' : Mem.addr) (h' : Mem.heap),
    Mem.markov_context_copy
      (Some 2%nat)
      [Some (Mem.Chars "a"); Some (Mem.Chars "b");
       Some (Mem.Context [None; Some 0%nat; Some 1%nat])]
    = Ok (Some c', h') /\
    (3 <= c')%nat /\
    Mem.markov_context_check_match 2%nat c' h' = Ok (true, h').
Proof.
  destruct (copy_independent_equal
              [Some (Mem.Chars "a"); Some (Mem.Chars "b");
               Some (Mem.Context [None; Some 0%nat; Some 1%nat])]
              2%nat {| previous_words := [None; Some "a"; Some "b"] |})
    as (c' & h' & slots' & Hcopy & Hnew & _ & _ & _ & _ & Hmatch & _).
  - reflexivity.
  - reflexivity.
  - apply filled_suffix_slots. split; [by intros [? [=]] | by eauto].
  - exists c', h'. split; [exact Hcopy|]. split; [exact Hnew | exact Hmatch].
Defined.

(** C4, as stated, fails for a context with a filled slot before an unfilled
    one: the copy holds the word in the last slot, and does not match. *)
Lemma copy_gap_context_differs :
  Mem.view [Some (Mem.Chars "a"); Some (Mem.Context [Some 0%nat; None; None])]
           1%nat
  = Some {| previous_words := [Some "a"; None; None] |} /\
  exists h' : Mem.heap,
    Mem.markov_context_copy
      (Some 1%nat)
      [Some (Mem.Chars "a"); Some (Mem.Context [Some 0%nat; None; None])]
    = Ok (Some 2%nat, h') /\
    Mem.view h' 2%nat = Some {| previous_words := [None; None; Some "a"] |} /\
    Mem.markov_context_check_match 1%nat 2%nat h' = Ok (false, h').
Proof.
  split; [reflexivity|]. eexists. split; [reflexivity|].
  split; reflexivity.
Defined.

(** The corpus of five times the word a: every context has one successor,
    no word has a terminator, and the quote has 51 words. *)
Lemma generated_quote_length_witness :
  markov_model_load_file true (Some repeated_word_corpus)
  = Ok (Some repeated_word_model) /\
  forallb (fun node => (length (node_value node) =? 1)%nat)
          (concat (model_nodes repeated_word_model)) = true /\
  forallb plain_word (model_words repeated_word_model) = true /\
  markov_model_generate_quote true (fun _ => 7) (Some repeated_word_model) 0
  = Ok (Some repeated_word_quote) /\
  length (quote_words repeated_word_quote) = 51%nat.
Proof.
  assert (Hwords : forallb plain_word (model_words repeated_word_model) = true)
    by (vm_compute; reflexivity).
  assert (Hquote : markov_model_generate_quote true (fun _ => 7)
                     (Some repeated_word_model) 0
                   = Ok (Some repeated_word_quote))
    by (vm_compute; reflexivity).
  split; [vm_compute; reflexivity|]. split; [vm_compute; reflexivity|].
  split; [exact Hwords|]. split; [exact Hquote|].
  exact (generated_quote_length true (fun _ => 7) repeated_word_model 0
                                repeated_word_quote Hwords Hquote).
Defined.

(** The new model has no node: no context has a successor. *)
Lemma get_next_never_seen_witness :
  markov_model_get_next true (fun _ => 7) (Some (markov_model_new HASH_MAP_SIZE))
                        {| previous_words := [None; Some "a"; Some "b"] |} 0
  = Ok (None, 0%nat).
Proof.
  apply get_next_never_seen.
  - split; [split; [discriminate | reflexivity] | reflexivity].
  - reflexivity.
  - intros bucket node Hbucket Hnode.
    apply elem_of_replicate in Hbucket as [-> _]. by apply elem_of_nil in Hnode.
Defined.

(** The model of the repeated word, asked for the window of two a. *)
Lemma get_next_table_witness :
  markov_model_get_next true (fun _ => 7) (Some repeated_word_model)
                        {| previous_words := [None; Some "a"; Some "a"] |} 0
  = Ok (Some "a", 1%nat).
Proof.
  rewrite (get_next_table true (fun _ => 7) repeated_word_model).
  - reflexivity.
  - split; [split; [discriminate | reflexivity] | reflexivity].
  - reflexivity.
Defined.

(** Two counts whose sum wraps around to zero. *)
Lemma get_random_total_count_witness :
  markov_value_get_random
    [ {| value_word := "x"; value_count := SIZE_MODULUS - 1 |};
      {| value_word := "y"; value_count := 1 |} ] 7
  = Fault DivByZero.
Proof.
  apply (proj1 (get_random_total_count
                  [ {| value_word := "x"; value_count := SIZE_MODULUS - 1 |};
                    {| value_word := "y"; value_count := 1 |} ] 7)).
  reflexivity.
Defined.

(** A first word added under the new context. *)
Lemma add_data_lookup_witness :
  exists model',
    markov_model_add_data true (Some (markov_model_new HASH_MAP_SIZE))
                          markov_context_new "hello"
    = Ok (Some model') /\
    model_find true model' markov_context_new
    = Some [ {| value_word := "hello"; value_count := 1 |} ].
Proof.
  destruct (add_data_lookup true (fun _ => 7) (markov_model_new HASH_MAP_SIZE)
                            markov_context_new "hello")
    as (model' & Hadd & _ & _ & Hmatch & _).
  - split; [split; [discriminate | reflexivity] | reflexivity].
  - reflexivity.
  - by apply (filled_suffix_slots None None None).
  - exists model'. split; [exact Hadd|].
    exact (Hmatch markov_context_new eq_refl).
Defined.

(** A model without buckets. *)
Lemma zero_size_faults_witness :
  markov_model_get_next true (fun _ => 7) (Some (markov_model_new 0))
                        markov_context_new 0
  = Fault DivByZero.
Proof.
  apply (zero_size_faults true (fun _ => 7) (markov_model_new 0)
                          markov_context_new "a" 0).
  reflexivity.
Defined.

(** A context with an unfilled slot between two words. *)
Lemma copy_window_witness :
  markov_context_copy (Some {| previous_words := [Some "a"; None; Some "b"] |})
  = Ok (Some {| previous_words := [None; Some "a"; Some "b"] |}).
Proof.
  exact (copy_window {| previous_words := [Some "a"; None; Some "b"] |} eq_refl).
Defined.

(** Four words pushed on a window of two. *)
Lemma push_words_window_witness :
  push_words ["a"; "b"; "c"; "d"]
             {| previous_words := [None; Some "x"; Some "y"] |}
  = Ok {| previous_words := [Some "b"; Some "c"; Some "d"] |}.
Proof.
  destruct (push_words_window
              ["a"; "b"; "c"; "d"]
              {| previous_words := [None; Some "x"; Some "y"] |} eq_refl)
    as (_ & _ & Hfull).
  apply Hfull. unfold MARKOV_CONTEXT_SIZE. cbn. lia.
Defined.

(** The words a, b, a added under the new context. *)
Lemma trained_tables_witness :
  exists model,
    add_all true [(markov_context_new, "a"); (markov_context_new, "b");
                  (markov_context_new, "a")]
            (Some (markov_model_new HASH_MAP_SIZE))
    = Ok (Some model) /\
    model_find true model markov_context_new
    = Some [ {| value_word := "b"; value_count := 1 |};
             {| value_word := "a"; value_count := 2 |} ].
Proof.
  destruct (trained_tables true [(markov_context_new, "a");
                                 (markov_context_new, "b");
                                 (markov_context_new, "a")] HASH_MAP_SIZE)
    as (model & Hall & _ & _ & Hfind).
  - split; reflexivity.
  - repeat constructor; by apply (filled_suffix_slots None None None).
  - exists model. split; [exact Hall|]. exact (Hfind markov_context_new).
Defined.

(** The next word after the new context, in the same model. *)
Lemma trained_prediction_witness :
  exists model,
    add_all true [(markov_context_new, "a"); (markov_context_new, "b");
                  (markov_context_new, "a")]
            (Some (markov_model_new HASH_MAP_SIZE))
    = Ok (Some model) /\
    exists word,
      word ∈ ["a"; "b"; "a"] /\
      markov_model_get_next true (fun _ => 7) (Some model) markov_context_new 0
      = Ok (Some word, 1%nat).
Proof.
  destruct (trained_prediction true (fun _ => 7)
                               [(markov_context_new, "a");
                                (markov_context_new, "b");
                                (markov_context_new, "a")] HASH_MAP_SIZE)
    as (model & Hall & Hnext).
  - split; reflexivity.
  - repeat constructor; by apply (filled_suffix_slots None None None).
  - reflexivity.
  - exists model. split; [exact Hall|].
    destruct (Hnext markov_context_new 0%nat) as [[Hnone _]|Hsome].
    + discriminate Hnone.
    + exact Hsome.
Defined.

(** A second line, after the line a b. *)
Lemma load_line_trains_witness :
  exists model',
    load_line true (Some (markov_model_new HASH_MAP_SIZE),
                    {| previous_words := [None; Some "a"; Some "b"] |})
              "c d"
    = Ok (Some model',
          {| previous_words := [Some "b"; Some "c"; Some "d"] |}).
Proof.
  destruct (load_line_trains true "c d" ["a"; "b"]
                             (markov_model_new HASH_MAP_SIZE))
    as (model' & Hload & _).
  - split; [split; [discriminate | reflexivity] | reflexivity].
  - reflexivity.
  - discriminate.
  - reflexivity.
  - exists model'. exact Hload.
Defined.

(** A line of a space and a newline. *)
Lemma load_line_blank_witness :
  load_line true (Some (markov_model_new HASH_MAP_SIZE),
                  {| previous_words := [None; Some "a"; Some "b"] |})
            (String " " (String "010" ""))
  = Ok (Some (markov_model_new HASH_MAP_SIZE), markov_context_new).
Proof. apply load_line_blank; reflexivity. Defined.

(** The quote of the repeated word. *)
Lemma generated_quote_shape_witness :
  exists words : list string,
    Some repeated_word_quote = Some (String.concat " " words) /\
    words <> [] /\
    Forall (fun word => word ∈ model_words repeated_word_model) words /\
    quote_ending words.
Proof.
  apply (generated_quote_shape true (fun _ => 7) repeated_word_model 0).
  - refine (bool_decide_eq_true_1 _ _). vm_compute. reflexivity.
  - vm_compute. reflexivity.
Defined.

(** The run of [main] on the corpus of the repeated word. *)
Lemma main_quote_witness :
  main true (fun _ => 7) (Some repeated_word_corpus) = Ok (Some repeated_word_quote) /\
  (main true (fun _ => 7) (Some repeated_word_corpus) = Fault NullDeref \/
   exists words : list string,
     main true (fun _ => 7) (Some repeated_word_corpus)
     = Ok (Some (String.concat " " words)) /\
     words <> [] /\
     (forall (i : nat) (word : string),
         words !! i = Some word ->
         word ∈ followers (corpus_transitions
                             [] (file_lines repeated_word_corpus))
                          (window (take i words)) /\
         token_of is_delimiter word /\
         exists line, line ∈ file_lines repeated_word_corpus /\
                      word ∈ strtok_all is_delimiter line) /\
     quote_ending words).
Proof.
  split; [vm_compute; reflexivity|].
  apply (main_quote true (fun _ => 7) repeated_word_corpus). reflexivity.
Defined.

(** A context in memory with the words a and b in its last two slots. *)
Lemma mem_push_word_view_witness :
  exists (h' : Mem.heap) (context' : MarkovContext),
    Mem.markov_context_push_word
      (Some 3%nat) (Some 0%nat)
      [Some (Mem.Chars "a"); Some (Mem.Chars "b"); Some (Mem.Chars "c");
       Some (Mem.Context [Some 0%nat; Some 1%nat; Some 2%nat])]
    = Ok (3%nat, h') /\
    markov_context_push_word
      (Some {| previous_words := [Some "a"; Some "b"; Some "c"] |}) (Some "a")
    = Ok context' /\
    h' = [None; Some (Mem.Chars "b"); Some (Mem.Chars "c");
          Some (Mem.Context [Some 1%nat; Some 2%nat; Some 4%nat]);
          Some (Mem.Chars "a")] /\
    context' = {| previous_words := [Some "b"; Some "c"; Some "a"] |}.
Proof.
  destruct (mem_push_word_view
              [Some (Mem.Chars "a"); Some (Mem.Chars "b"); Some (Mem.Chars "c");
               Some (Mem.Context [Some 0%nat; Some 1%nat; Some 2%nat])]
              3%nat 0%nat [Some 0%nat; Some 1%nat; Some 2%nat]
              {| previous_words := [Some "a"; Some "b"; Some "c"] |} "a")
    as (h' & context' & Hpush & Hpure & _).
  - reflexivity.
  - repeat constructor.
  - intros [|[|[|i]]] [|[|[|j]]] a Hi Hj; cbn in Hi, Hj; try congruence;
      try (destruct j; discriminate Hj); destruct i; discriminate Hi.
  - reflexivity.
  - reflexivity.
  - exists h', context'. split; [exact Hpush|]. split; [exact Hpure|].
    vm_compute in Hpush, Hpure.
    injection Hpush as <-. injection Hpure as <-. split; reflexivity.
Defined.

(** The same context, reset. *)
Lemma mem_reset_view_witness :
  exists h' : Mem.heap,
    Mem.markov_context_reset
      (Some 2%nat)
      [Some (Mem.Chars "a"); Some (Mem.Chars "b");
       Some (Mem.Context [None; Some 0%nat; Some 1%nat])]
    = Ok (2%nat, h') /\
    Mem.owns h' 2%nat markov_context_new.
Proof.
  apply (mem_reset_view
           [Some (Mem.Chars "a"); Some (Mem.Chars "b");
            Some (Mem.Context [None; Some 0%nat; Some 1%nat])]
           2%nat {| previous_words := [None; Some "a"; Some "b"] |}).
  - exists [None; Some 0%nat; Some 1%nat]. split; [reflexivity|]. split.
    + repeat constructor.
    + intros [|[|[|i]]] [|[|[|j]]] a Hi Hj; cbn in Hi, Hj; try congruence;
    try (destruct j; discriminate Hj); destruct i; discriminate Hi.
  - reflexivity.
Defined.

(** Two contexts in memory that hold equal words in different blocks. *)
Lemma mem_check_match_refines_witness :
  Mem.markov_context_check_match
    2%nat 3%nat
    [Some (Mem.Chars "a"); Some (Mem.Chars "a");
     Some (Mem.Context [None; None; Some 0%nat]);
     Some (Mem.Context [None; None; Some 1%nat])]
  = Ok (true,
        [Some (Mem.Chars "a"); Some (Mem.Chars "a");
         Some (Mem.Context [None; None; Some 0%nat]);
         Some (Mem.Context [None; None; Some 1%nat])]).
Proof.
  exact (mem_check_match_refines
           [Some (Mem.Chars "a"); Some (Mem.Chars "a");
            Some (Mem.Context [None; None; Some 0%nat]);
            Some (Mem.Context [None; None; Some 1%nat])]
           2%nat 3%nat
           {| previous_words := [None; None; Some "a"] |}
           {| previous_words := [None; None; Some "a"] |}
           eq_refl eq_refl eq_refl eq_refl).
Defined.

(** Freeing the context of the words a and b frees the three blocks. *)
Lemma mem_free_spec_witness :
  exists h' : Mem.heap,
    Mem.markov_context_free
      (Some 2%nat)
      [Some (Mem.Chars "a"); Some (Mem.Chars "b");
       Some (Mem.Context [None; Some 0%nat; Some 1%nat]);
       Some (Mem.Chars "c")]
    = Ok ((), h') /\
    h' = [None; None; None; Some (Mem.Chars "c")] /\
    Mem.markov_context_free (Some 2%nat) h' = Fault InvalidPointer.
Proof.
  destruct (mem_free_spec
              [Some (Mem.Chars "a"); Some (Mem.Chars "b");
               Some (Mem.Context [None; Some 0%nat; Some 1%nat]);
               Some (Mem.Chars "c")]
              2%nat [None; Some 0%nat; Some 1%nat]
              {| previous_words := [None; Some "a"; Some "b"] |})
    as (h' & Hfree & _ & _ & _ & _ & Hagain).
  - reflexivity.
  - repeat constructor.
  - intros [|[|[|i]]] [|[|[|j]]] a Hi Hj; cbn in Hi, Hj; try congruence;
    try (destruct j; discriminate Hj); destruct i; discriminate Hi.
  - reflexivity.
  - exists h'. split; [exact Hfree|]. split; [|exact Hagain].
    vm_compute in Hfree. congruence.
Defined.
